(** * Stockfish history statistics ([src/history.h])

    A shallow embedding of the history header of the engine: the saturating
    counter [StatsEntry<T, D>] with its update operator, the masking index
    functions, the knight multiply-shift index with its table of constants,
    and the multi-dimensional tables built from the counters. *)

From Stdlib Require Import ZArith Lia List Bool.
From stdpp Require Import base list.

Local Open Scope Z_scope.

(** ** Machine integers

    The counters store a fixed-width signed integer [T]; the arithmetic of
    the update is carried out after the usual arithmetic conversions with an
    [int] operand, so in [int] for value types of up to 32 bits and in the
    value type itself for a 64-bit one.  Values are mathematical integers
    and every conversion or possibly overflowing operation is written as an
    explicit two's-complement [wrap]. *)
Module Machine.

Inductive ValueType := Int8 | Int16 | Int32 | Int64.

Definition bits (T : ValueType) : Z :=
  match T with Int8 => 8 | Int16 => 16 | Int32 => 32 | Int64 => 64 end.

Definition modulus (T : ValueType) : Z := 2 ^ bits T.
Definition half (T : ValueType) : Z := 2 ^ (bits T - 1).

(** [std::numeric_limits<T>::min()] and [::max()]. *)
Definition type_min (T : ValueType) : Z := - half T.
Definition type_max (T : ValueType) : Z := half T - 1.

Definition in_range (T : ValueType) (z : Z) : Prop :=
  type_min T <= z <= type_max T.

(** Reduction of an integer into the range of [T]. *)
Definition wrap (T : ValueType) (z : Z) : Z :=
  (z + half T) mod modulus T - half T.

(** The type the update arithmetic is carried out in: the result of the
    usual arithmetic conversions between [T] and [int]. *)
Definition arith_type (T : ValueType) : ValueType :=
  match T with Int64 => Int64 | _ => Int32 end.

Definition int_min : Z := type_min Int32.
Definition int_max : Z := type_max Int32.

(** Conversions of the index functions: [int] to [uint64_t] and back. *)
Definition to_u64 (z : Z) : Z := z mod 2 ^ 64.
Definition to_int (z : Z) : Z := wrap Int32 z.

End Machine.
Import Machine.

(** ** The saturating counter *)

(** [T entry;] *)
Record StatsEntry := { entry : Z }.

(** The value-initialised counter ([StatsEntry<T, D>{}]): the class declares
    no constructor and no member initialiser, so this is the zero of [T]. *)
Definition value_init : StatsEntry := {| entry := 0 |}.

(** [StatsEntry& operator=(const T& v)] *)
Definition assign (se : StatsEntry) (v : Z) : StatsEntry := {| entry := v |}.

(** [operator const T&() const] *)
Definition read (se : StatsEntry) : Z := entry se.

(** [std::clamp(v, lo, hi)] *)
Definition clamp (v lo hi : Z) : Z :=
  if v <? lo then lo else if hi <? v then hi else v.

(** [void operator<<(int bonus)].  The negation [-D] and [std::abs] of the
    clamped bonus cannot overflow for a positive [D], nor can the division
    by [D]; the product, the difference and the sum are reduced into the
    arithmetic type, and the compound assignment converts the sum to [T].
    The reduction is the two's-complement result the compiled engine
    computes; the language itself leaves an overflowing signed operation
    undefined, so the results below that matter are the ones showing that
    nothing is reduced at all. *)
Definition update (T : ValueType) (D : Z) (se : StatsEntry) (bonus : Z)
  : StatsEntry :=
  let A := arith_type T in
  let clampedBonus := clamp bonus (- D) D in
  let prod := wrap A (entry se * Z.abs clampedBonus) in
  let delta := wrap A (clampedBonus - Z.quot prod D) in
  {| entry := wrap T (wrap A (entry se + delta)) |}.

(** [assert(std::abs(entry) <= D)] *)
Definition assertion (D : Z) (se : StatsEntry) : bool :=
  Z.abs (entry se) <=? D.

(** [n] successive updates with the same bonus. *)
Fixpoint repeat_update (T : ValueType) (D : Z) (bonus : Z) (n : nat)
    (se : StatsEntry) : StatsEntry :=
  match n with
  | O => se
  | S k => update T D (repeat_update T D bonus k se) bonus
  end.

(** The exact (unbounded) intermediate values of one update. *)
Definition exact_product (D e bonus : Z) : Z :=
  e * Z.abs (clamp bonus (- D) D).
Definition exact_delta (D e bonus : Z) : Z :=
  clamp bonus (- D) D - Z.quot (exact_product D e bonus) D.
Definition exact_sum (D e bonus : Z) : Z :=
  e + exact_delta D e bonus.

(** The instantiation is accepted by the class:
    [static_assert(D <= std::numeric_limits<T>::max())], with [D] positive. *)
Definition valid_bound (T : ValueType) (D : Z) : Prop :=
  0 < D /\ D <= type_max T.

(** The square of the bound is representable in the arithmetic type, so the
    product [entry * abs(clampedBonus)] cannot overflow. *)
Definition product_fits (T : ValueType) (D : Z) : Prop :=
  D * D <= type_max (arith_type T).

(** ** The table catalogue: value type and bound of each alias *)
Definition ButterflyHistory      : ValueType * Z := (Int16, 7183).
Definition LowPlyHistory         : ValueType * Z := (Int16, 7183).
Definition CapturePieceToHistory : ValueType * Z := (Int16, 10692).
Definition PieceToHistory        : ValueType * Z := (Int16, 30000).
Definition PawnHistory           : ValueType * Z := (Int16, 8192).
Definition KnightHistory         : ValueType * Z := (Int16, 5000).
Definition CORRECTION_HISTORY_LIMIT : Z := 1024.
Definition CorrectionHistory     : ValueType * Z := (Int16, CORRECTION_HISTORY_LIMIT).
Definition TTMoveHistory         : ValueType * Z := (Int16, 8192).

Definition catalog : list (ValueType * Z) :=
  [ButterflyHistory; LowPlyHistory; CapturePieceToHistory; PieceToHistory;
   PawnHistory; KnightHistory; CorrectionHistory; TTMoveHistory].

(** ** Index functions *)

Definition PAWN_HISTORY_SIZE : Z := 512.
Definition CORRECTION_HISTORY_SIZE : Z := 32768.
Definition LOW_PLY_HISTORY_SIZE : Z := 5.

Inductive PawnHistoryType := Normal | Correction.

Inductive Color := WHITE | BLACK.

(** Modelled from the spec: the position class ([position.h]) is outside
    this header; the index functions read from it only the three structural
    keys, opaque 64-bit unsigned integers, the non-pawn key one per side. *)
Record Position := {
  pawn_key : Z;
  minor_piece_key : Z;
  non_pawn_key : Color -> Z
}.

Definition pawn_history_size (T : PawnHistoryType) : Z :=
  match T with Normal => PAWN_HISTORY_SIZE | Correction => CORRECTION_HISTORY_SIZE end.

(** [pos.pawn_key() & ((T == Normal ? PAWN_HISTORY_SIZE : CORRECTION_HISTORY_SIZE) - 1)]:
    the [int] mask is converted to the key type, the result back to [int]. *)
Definition pawn_structure_index (T : PawnHistoryType) (pos : Position) : Z :=
  to_int (Z.land (pawn_key pos) (to_u64 (pawn_history_size T - 1))).

Definition minor_piece_index (pos : Position) : Z :=
  to_int (Z.land (minor_piece_key pos) (to_u64 (CORRECTION_HISTORY_SIZE - 1))).

Definition non_pawn_index (c : Color) (pos : Position) : Z :=
  to_int (Z.land (non_pawn_key pos c) (to_u64 (CORRECTION_HISTORY_SIZE - 1))).

(** ** The knight index *)

Definition KnightMagic : list Z :=
  [
   2649526798775546678; 4152603468059905820; 4323738553495348598; 8358822318513263564;
   8233741379241091944; 15862258506660595117; 11034153426427387283; 5179342299017078485;
   13953775647861833869; 9285332830472462433; 4707670090173510570; 633188408852161521;
   9295575317119436597; 2602449537074926626; 10402735044161298543; 5209354341409342328;
   162625749878507151; 1009651158123930541; 17868030413482491775; 18157387793351835647;
   18428448182976380927; 15559866339509124062; 15570116201671053920; 1155280919795624321;
   2486129120195482830; 13187947271813240921; 18406210577484414942; 18427602675714473387;
   18441114298743767039; 13816761900458831871; 6080440195611631637; 17058553541789489427;
   16801810908685894692; 10863528935562739968; 18302056847512170491; 13832238890018011135;
   18441604947771359199; 4539399656176549631; 10034574284689510417; 6922771568222818337;
   4170423972204183689; 13981410758149154305; 1458212938463817744; 14940013606182964225;
   10126812077910748164; 14499197477661460225; 10889334102842943525; 11449759955925008433;
   7662239901190162178; 10624671891104776129; 17829790316069208625; 834552698710835841;
   1569976736693633153; 18290846858870916161; 12326740164105761617; 5482981632183385993;
   9386590720569999446; 5202246693298479759; 15779688972541825106; 13366487713771978889;
   11198365102992539725; 15043574735303614497; 18334953575009493081; 975649118817374295
  ].

(** [(target * KnightMagic[from]) >> 56] on [uint64_t], returned as [int];
    an origin outside the table has no result. *)
Definition knight_attack_index (target : Z) (from : nat) : option Z :=
  match KnightMagic !! from with
  | Some magic => Some (to_int (Z.shiftr (to_u64 (target * magic)) 56))
  | None => None
  end.

(** Modelled from the spec: the squares reachable by a knight from an
    origin square.  The board geometry ([types.h], [bitboard.h]) is outside
    this header: squares are numbered 0..63 with the file in the low three
    bits and the rank above them, and a knight moves one file and two ranks
    or two files and one rank. *)
Definition file_of (s : Z) : Z := Z.land s 7.
Definition rank_of (s : Z) : Z := Z.shiftr s 3.

(** Modelled from the spec: a knight move changes the file by one and the
    rank by two, or the file by two and the rank by one. *)
Definition knight_move (from to : Z) : bool :=
  let df := Z.abs (file_of from - file_of to) in
  let dr := Z.abs (rank_of from - rank_of to) in
  ((df =? 1) && (dr =? 2)) || ((df =? 2) && (dr =? 1)).

(** Modelled from the spec: the 64 squares of the board. *)
Definition all_squares : list Z := List.map Z.of_nat (List.seq 0 64).

(** Modelled from the spec: the destination squares of a knight on [from],
    in increasing order. *)
Definition knight_targets (from : nat) : list Z :=
  List.flat_map (fun to => if knight_move (Z.of_nat from) to then [to] else [])
    all_squares.

(** Bitboards: bit [s] stands for square [s]. *)
Definition square_bb (s : Z) : Z := Z.shiftl 1 s.

Definition bb_of (sqs : list Z) : Z :=
  List.fold_right (fun s acc => Z.lor (square_bb s) acc) 0 sqs.

(** Modelled from the spec: the destination set of a knight on [from] as a
    bitboard (the engine's knight attack table, which [bitboard.h] holds). *)
Definition knight_attacks_bb (from : nat) : Z := bb_of (knight_targets from).

Definition subset_bb (s mask : Z) : Prop := Z.land s mask = s.

(** Every bitboard made of some of the given squares. *)
Fixpoint subsets_bb (sqs : list Z) : list Z :=
  match sqs with
  | [] => [0]
  | q :: r => subsets_bb r ++ List.map (Z.lor (square_bb q)) (subsets_bb r)
  end.

(** The proper subsets of the destination set of an origin. *)
Definition proper_subsets (from : nat) : list Z :=
  List.filter (fun b => negb (b =? knight_attacks_bb from))
    (subsets_bb (knight_targets from)).

(** The hash values of a list of bitboards for one origin. *)
Definition indices (from : nat) (bbs : list Z) : list (option Z) :=
  List.map (fun b => knight_attack_index b from) bbs.

Fixpoint distinct (l : list (option Z)) : bool :=
  match l with
  | [] => true
  | x :: r => negb (existsb (fun y => bool_decide (x = y)) r) && distinct r
  end.

(** The twelve central origins, the ones with eight destinations whose
    full destination set hashes to the slot of the empty set. *)
Definition central_origins : list nat :=
  [18; 19; 20; 21; 26; 27; 28; 29; 34; 35; 36; 37]%nat.

(** ** Multi-dimensional tables *)

(** Modelled from the spec: [MultiArray] ([misc.h]) is outside this header.
    A table is a fixed list of dimension sizes and its cells stored by
    value, contiguously and row-major (the last coordinate varies fastest);
    construction allocates the product of the sizes, every cell with the
    default value zero; indexing with a coordinate tuple outside the
    declared bounds is a precondition violation and has no result. *)
Record MultiArray := {
  sizes : list nat;
  cells : list StatsEntry
}.

(** Modelled from the spec: the number of cells, [sizes[0] * sizes[1] * ...]. *)
Definition cell_count (shape : list nat) : nat :=
  List.fold_right Nat.mul 1%nat shape.

(** Modelled from the spec: construction allocates the cells, each with the
    default value zero. *)
Definition construct (shape : list nat) : MultiArray :=
  {| sizes := shape; cells := replicate (cell_count shape) value_init |}.

(** Modelled from the spec: a coordinate tuple within the declared bounds
    has one coordinate per dimension, each below the size of its dimension. *)
Fixpoint in_bounds (shape coords : list nat) : bool :=
  match shape, coords with
  | [], [] => true
  | n :: ns, c :: cs => (c <? n)%nat && in_bounds ns cs
  | _, _ => false
  end.

(** Modelled from the spec: the row-major position of a coordinate tuple,
    the last coordinate varying fastest; none outside the bounds. *)
Fixpoint offset (shape coords : list nat) : option nat :=
  match shape, coords with
  | [], [] => Some 0%nat
  | n :: ns, c :: cs =>
      if (c <? n)%nat
      then match offset ns cs with
           | Some o => Some (c * cell_count ns + o)%nat
           | None => None
           end
      else None
  | _, _ => None
  end.

(** Modelled from the spec: indexing, the cell at a coordinate tuple. *)
Definition index (t : MultiArray) (coords : list nat) : option StatsEntry :=
  match offset (sizes t) coords with
  | Some i => cells t !! i
  | None => None
  end.

(** Reading the cell at a coordinate tuple through the counter's conversion
    operator. *)
Definition load (t : MultiArray) (coords : list nat) : option Z :=
  match index t coords with
  | Some se => Some (read se)
  | None => None
  end.

(** Writing the cell at a coordinate tuple through the counter's assignment
    operator. *)
Definition store (t : MultiArray) (coords : list nat) (v : Z)
  : option MultiArray :=
  match offset (sizes t) coords with
  | Some i =>
      match cells t !! i with
      | Some se => Some {| sizes := sizes t; cells := <[i := assign se v]> (cells t) |}
      | None => None
      end
  | None => None
  end.


(** Every coordinate tuple of a shape, in row-major order. *)
Fixpoint all_coords (shape : list nat) : list (list nat) :=
  match shape with
  | [] => [[]]
  | n :: ns => List.flat_map (fun c => List.map (cons c) (all_coords ns)) (List.seq 0 n)
  end.

(** Writing the marker of each listed coordinate tuple, one after another. *)
Fixpoint write_all (marker : list nat -> Z) (cs : list (list nat))
    (t : MultiArray) : option MultiArray :=
  match cs with
  | [] => Some t
  | c :: rest =>
      match store t c (marker c) with
      | Some t' => write_all marker rest t'
      | None => None
      end
  end.

Definition well_formed (t : MultiArray) : Prop :=
  length (cells t) = cell_count (sizes t).

(** Default-initialisation of a counter.  The class declares no constructor
    and gives [entry] no initialiser, so the implicit default constructor
    leaves the member as the storage had it: the counter holds an
    indeterminate value, and any value of [T] may be found there. *)
Definition default_initialized (T : ValueType) (se : StatsEntry) : Prop :=
  in_range T (entry se).

(** Modelled from the spec: a default-constructed table of a shape owns one
    cell per coordinate tuple, each default-constructed inside the table
    when the table is allocated. *)
Definition default_constructed (T : ValueType) (shape : list nat)
    (t : MultiArray) : Prop :=
  sizes t = shape /\ well_formed t /\ List.Forall (default_initialized T) (cells t).

(** Successive updates of one counter with a list of bonuses, first to
    last: the calls [entry << b1; entry << b2; ...]. *)
Definition updates (T : ValueType) (D : Z) (se : StatsEntry) (bonuses : list Z)
  : StatsEntry :=
  List.fold_left (update T D) bonuses se.

(** One update without the conversions: the stored value [e] and the
    already clamped bonus [c] give [e + (c - e * abs(c) / D)]. *)
Definition step (D e c : Z) : Z := e + (c - Z.quot (e * Z.abs c) D).

(** [static_assert((SIZE & (SIZE - 1)) == 0, "... has to be a power of 2")] *)
Definition power_of_2_assert (size : Z) : bool :=
  Z.land size (size - 1) =? 0.

(** ** Facts about the machine integers *)
Section MachineFacts.

Lemma half_pos T : 0 < half T.
Proof. destruct T; reflexivity. Qed.

Lemma modulus_half T : modulus T = 2 * half T.
Proof. destruct T; reflexivity. Qed.

Lemma wrap_small T z : in_range T z -> wrap T z = z.
Proof.
  unfold in_range, type_min, type_max, wrap. intros Hz.
  rewrite modulus_half. pose proof (half_pos T).
  rewrite Z.mod_small by lia. lia.
Qed.

Lemma wrap_in_range T z : in_range T (wrap T z).
Proof.
  unfold in_range, type_min, type_max, wrap.
  rewrite modulus_half. pose proof (half_pos T).
  pose proof (Z.mod_pos_bound (z + half T) (2 * half T)). lia.
Qed.

Lemma arith_type_max T : type_max T <= type_max (arith_type T).
Proof. destruct T; vm_compute; discriminate. Qed.

Lemma arith_type_min T : type_min (arith_type T) <= type_min T.
Proof. destruct T; vm_compute; discriminate. Qed.

Lemma arith_type_wide T : int_max <= type_max (arith_type T).
Proof. destruct T; vm_compute; discriminate. Qed.

Lemma type_min_max T : type_min T = - type_max T - 1.
Proof. unfold type_min, type_max. lia. Qed.

Lemma in_range_arith T z : in_range T z -> in_range (arith_type T) z.
Proof.
  unfold in_range. pose proof (arith_type_max T). pose proof (arith_type_min T). lia.
Qed.

Lemma in_range_abs T z : Z.abs z <= type_max T -> in_range T z.
Proof. unfold in_range. rewrite type_min_max. lia. Qed.

End MachineFacts.

(** ** Arithmetic of one update step *)
Section UpdateArithmetic.

Variable D : Z.
Hypothesis D_pos : 0 < D.

Lemma clamp_bounds bonus : - D <= clamp bonus (- D) D <= D.
Proof. unfold clamp. destruct (Z.ltb_spec bonus (- D)), (Z.ltb_spec D bonus); lia. Qed.

Lemma clamp_inside bonus : - D <= bonus <= D -> clamp bonus (- D) D = bonus.
Proof. unfold clamp. destruct (Z.ltb_spec bonus (- D)), (Z.ltb_spec D bonus); lia. Qed.

Lemma clamp_above bonus : D <= bonus -> clamp bonus (- D) D = D.
Proof. unfold clamp. destruct (Z.ltb_spec bonus (- D)), (Z.ltb_spec D bonus); lia. Qed.

Lemma clamp_below bonus : bonus <= - D -> clamp bonus (- D) D = - D.
Proof. unfold clamp. destruct (Z.ltb_spec bonus (- D)), (Z.ltb_spec D bonus); lia. Qed.

(** The decayed step for a non-negative bonus [c]. *)
Lemma step_nonneg_bonus e c :
  Z.abs e <= D -> 0 <= c <= D -> Z.abs (e + c - Z.quot (e * c) D) <= D.
Proof.
  intros He Hc. destruct (Z_le_gt_dec 0 e) as [Hpos | Hneg].
  - rewrite Z.quot_div_nonneg by nia.
    pose proof (Z.div_mod (e * c) D ltac:(lia)) as Hdm.
    pose proof (Z.mod_pos_bound (e * c) D D_pos) as Hm.
    set (k := e * c / D) in *.
    assert (k <= e) by nia.
    assert (e + c - D <= k) by nia.
    lia.
  - replace (e * c) with (- (- e * c)) by ring.
    rewrite Z.quot_opp_l by lia.
    rewrite Z.quot_div_nonneg by nia.
    pose proof (Z.div_mod (- e * c) D ltac:(lia)) as Hdm.
    pose proof (Z.mod_pos_bound (- e * c) D D_pos) as Hm.
    set (k := - e * c / D) in *.
    assert (0 <= k) by (apply Z.div_pos; nia).
    assert (k <= - e) by nia.
    lia.
Qed.

Lemma exact_sum_bound e bonus :
  Z.abs e <= D -> Z.abs (exact_sum D e bonus) <= D.
Proof.
  intros He. unfold exact_sum, exact_delta, exact_product.
  pose proof (clamp_bounds bonus) as Hc.
  set (c := clamp bonus (- D) D) in *.
  destruct (Z_le_gt_dec 0 c) as [Hpos | Hneg].
  - rewrite (Z.abs_eq c) by lia.
    replace (e + (c - Z.quot (e * c) D)) with (e + c - Z.quot (e * c) D) by ring.
    apply step_nonneg_bonus; lia.
  - rewrite (Z.abs_neq c) by lia.
    pose proof (step_nonneg_bonus (- e) (- c) ltac:(lia) ltac:(lia)) as H.
    assert (Hq : Z.quot (- e * - c) D = - Z.quot (e * - c) D).
    { replace (- e * - c) with (- (e * - c)) by ring.
      apply Z.quot_opp_l. lia. }
    rewrite Hq in H. lia.
Qed.

Lemma exact_product_bound e bonus :
  Z.abs e <= D -> Z.abs (exact_product D e bonus) <= D * D.
Proof.
  intros He. unfold exact_product. pose proof (clamp_bounds bonus).
  rewrite Z.abs_mul. assert (0 <= Z.abs (Z.abs (clamp bonus (- D) D)) <= D) by lia.
  nia.
Qed.

Lemma quot_abs_le a : Z.abs (Z.quot a D) <= Z.abs a.
Proof.
  destruct (Z_le_gt_dec 0 a).
  - rewrite Z.quot_div_nonneg by lia.
    rewrite !Z.abs_eq; [| lia | apply Z.div_pos; lia].
    apply Z.div_le_upper_bound; nia.
  - replace a with (- - a) at 1 by ring.
    rewrite Z.quot_opp_l by lia. rewrite Z.abs_opp.
    rewrite Z.quot_div_nonneg by lia.
    rewrite Z.abs_eq by (apply Z.div_pos; lia).
    rewrite Z.abs_neq by lia.
    apply Z.div_le_upper_bound; nia.
Qed.

Lemma exact_delta_bound e bonus :
  Z.abs e <= D -> Z.abs (exact_delta D e bonus) <= 2 * D.
Proof.
  intros He. unfold exact_delta.
  pose proof (clamp_bounds bonus).
  pose proof (exact_sum_bound e bonus He) as Hs.
  unfold exact_sum, exact_delta in Hs. lia.
Qed.

End UpdateArithmetic.

(** ** The update on the machine *)
Section MachineUpdate.

Variable T : ValueType.
Variable D : Z.
Hypothesis D_valid : valid_bound T D.
Hypothesis D_fits : product_fits T D.

Lemma twice_bound_fits : 2 * D <= type_max (arith_type T).
Proof.
  destruct D_valid as [Hpos _]. unfold product_fits in D_fits.
  pose proof (arith_type_wide T) as Hw.
  assert (4 <= int_max) by (vm_compute; discriminate).
  destruct (Z_le_gt_dec D 2); nia.
Qed.

(** Without overflow the stored result is the exact value of the formula. *)
Lemma update_exact e bonus :
  Z.abs e <= D ->
  update T D {| entry := e |} bonus = {| entry := exact_sum D e bonus |}.
Proof.
  intros He. destruct D_valid as [Hpos Hmax].
  pose proof twice_bound_fits as H2.
  pose proof (exact_product_bound D Hpos e bonus He) as Hp.
  pose proof (exact_delta_bound D Hpos e bonus He) as Hd.
  pose proof (exact_sum_bound D Hpos e bonus He) as Hs.
  unfold product_fits in D_fits.
  unfold update; cbn [entry]. f_equal.
  fold (exact_product D e bonus).
  rewrite (wrap_small (arith_type T) (exact_product D e bonus))
    by (apply in_range_abs; lia).
  fold (exact_delta D e bonus).
  rewrite (wrap_small (arith_type T) (exact_delta D e bonus))
    by (apply in_range_abs; lia).
  fold (exact_sum D e bonus).
  rewrite (wrap_small (arith_type T) (exact_sum D e bonus))
    by (apply in_range_abs; lia).
  apply wrap_small, in_range_abs. lia.
Qed.

End MachineUpdate.

(** A bound accepted by a value type of at most 16 bits never lets the
    product overflow [int]; nor does an [int] bound with a 64-bit type. *)
Lemma narrow_product_fits T D :
  bits T <= 16 -> valid_bound T D -> product_fits T D.
Proof.
  intros Hb [Hpos Hmax]. unfold product_fits.
  destruct T; cbn in Hb; try lia;
    change (type_max (arith_type _)) with 2147483647;
    [change (type_max Int8) with 127 in Hmax
    |change (type_max Int16) with 32767 in Hmax]; nia.
Qed.

Lemma wide_product_fits D :
  0 < D -> D <= int_max -> product_fits Int64 D.
Proof.
  intros Hpos Hmax. unfold product_fits.
  change (type_max (arith_type Int64)) with 9223372036854775807.
  change int_max with 2147483647 in Hmax. nia.
Qed.

Lemma catalog_int16 T D :
  In (T, D) catalog -> T = Int16 /\ 0 < D <= 32767.
Proof.
  unfold catalog. cbn [In]. intros H.
  repeat (destruct H as [H | H]; [inversion H; subst; split; [reflexivity | vm_compute; split; [reflexivity | discriminate]] |]).
  contradiction.
Qed.

Lemma exact_sum_zero_bonus D e : 0 < D -> exact_sum D e 0 = e.
Proof.
  intros Hpos. unfold exact_sum, exact_delta, exact_product.
  rewrite (clamp_inside D 0) by lia.
  cbn [Z.abs]. rewrite Z.mul_0_r, Z.quot_0_l by lia. lia.
Qed.

Lemma exact_sum_full_pos D e bonus :
  0 < D -> D <= bonus -> exact_sum D e bonus = D.
Proof.
  intros Hpos Hb. unfold exact_sum, exact_delta, exact_product.
  rewrite (clamp_above D Hpos bonus Hb).
  rewrite (Z.abs_eq D), Z.quot_mul by lia. lia.
Qed.

Lemma exact_sum_full_neg D e bonus :
  0 < D -> bonus <= - D -> exact_sum D e bonus = - D.
Proof.
  intros Hpos Hb. unfold exact_sum, exact_delta, exact_product.
  rewrite (clamp_below D Hpos bonus Hb).
  rewrite (Z.abs_neq (- D)), Z.opp_involutive, Z.quot_mul by lia. lia.
Qed.

(** ** The counter: settled properties *)

(** C1 (as amended).  For every signed value type [T] and every positive
    bound [D] not exceeding the maximum of [T] whose square is representable
    in the type the arithmetic is carried out in, every stored value of
    magnitude at most [D] and every integer bonus, the update leaves a value
    of magnitude at most [D]: the assertion after the update holds. *)
Theorem update_saturates (T : ValueType) (D e bonus : Z) :
  valid_bound T D -> product_fits T D -> Z.abs e <= D ->
  Z.abs (entry (update T D {| entry := e |} bonus)) <= D
  /\ assertion D (update T D {| entry := e |} bonus) = true.
Proof.
  intros Hv Hf He.
  assert (Z.abs (entry (update T D {| entry := e |} bonus)) <= D) as Hb.
  { rewrite (update_exact T D Hv Hf e bonus He). cbn [entry].
    apply exact_sum_bound; [apply Hv | exact He]. }
  split; [exact Hb |]. unfold assertion. apply Z.leb_le. exact Hb.
Qed.

Lemma update_saturates_witness :
  Z.abs (entry (update Int16 7183 {| entry := 7000 |} 5000)) <= 7183
  /\ assertion 7183 (update Int16 7183 {| entry := 7000 |} 5000) = true.
Proof.
  apply (update_saturates Int16 7183 7000 5000).
  - split; [reflexivity | vm_compute; discriminate].
  - vm_compute; discriminate.
  - vm_compute; discriminate.
Defined.

(** With a 32-bit value type and the bound 65536 the product
    [65536 * 65536] does not fit [int]. *)
Example int32_product_overflows :
  int_max < exact_product 65536 65536 65536
  /\ entry (update Int32 65536 {| entry := 65536 |} 65536) = 131072.
Proof. split; reflexivity. Qed.

(** C1 as stated fails: the claim quantified over every value type and every
    bound up to its maximum is refuted by [StatsEntry<int32_t, 65536>]
    holding 65536 and updated with the bonus 65536. *)
Lemma update_saturates_any_bound_counterexample :
  ~ (forall (T : ValueType) (D e bonus : Z),
        valid_bound T D -> Z.abs e <= D ->
        Z.abs (entry (update T D {| entry := e |} bonus)) <= D).
Proof.
  intros H.
  specialize (H Int32 65536 65536 65536).
  assert (valid_bound Int32 65536) as Hv
      by (split; [reflexivity | vm_compute; discriminate]).
  specialize (H Hv ltac:(vm_compute; discriminate)).
  vm_compute in H. apply H. reflexivity.
Qed.

(** C3.  For every value type, every positive bound and every stored value
    of the type, the update with bonus zero leaves the counter unchanged. *)
Theorem update_zero_bonus (T : ValueType) (D e : Z) :
  0 < D -> in_range T e ->
  update T D {| entry := e |} 0 = {| entry := e |}.
Proof.
  intros Hpos He.
  assert (in_range (arith_type T) 0) as H0
      by (apply in_range_arith; split; destruct T; vm_compute; discriminate).
  unfold update; cbn [entry]. f_equal.
  rewrite (clamp_inside D 0) by lia.
  change (Z.abs 0) with 0. rewrite Z.mul_0_r.
  rewrite (wrap_small (arith_type T) 0 H0).
  rewrite Z.quot_0_l by lia. change (0 - 0) with 0.
  rewrite (wrap_small (arith_type T) 0 H0).
  rewrite Z.add_0_r.
  rewrite (wrap_small (arith_type T) e) by (apply in_range_arith; exact He).
  apply wrap_small. exact He.
Qed.

Lemma update_zero_bonus_witness :
  update Int16 7183 {| entry := -4321 |} 0 = {| entry := -4321 |}.
Proof.
  apply (update_zero_bonus Int16 7183 (-4321)).
  - reflexivity.
  - split; vm_compute; discriminate.
Defined.

(** C5.  With the bound 100, in any value type, a counter at 0 goes to 50
    on the bonus 50, to 75 on a second bonus 50, and to exactly -100 on the
    bonus -200. *)
Theorem update_scenario (T : ValueType) :
  let s1 := update T 100 value_init 50 in
  let s2 := update T 100 s1 50 in
  let s3 := update T 100 s2 (-200) in
  read s1 = 50 /\ read s2 = 75 /\ read s3 = -100.
Proof. destruct T; repeat split; reflexivity. Qed.

(** C9.  For every table of the catalogue (all store [int16_t]), every
    stored value of magnitude at most the bound and every integer bonus, the
    exact product, difference and sum of the update lie in the range of a
    32-bit [int], the sum lies in the range of [int16_t], and the stored
    result is that exact sum: nothing wraps. *)
Theorem catalog_no_overflow (T : ValueType) (D e bonus : Z) :
  In (T, D) catalog -> Z.abs e <= D ->
  T = Int16
  /\ in_range Int32 (exact_product D e bonus)
  /\ in_range Int32 (exact_delta D e bonus)
  /\ in_range Int32 (exact_sum D e bonus)
  /\ in_range Int16 (exact_sum D e bonus)
  /\ entry (update T D {| entry := e |} bonus) = exact_sum D e bonus.
Proof.
  intros Hin He. destruct (catalog_int16 T D Hin) as [-> [Hpos Hmax]].
  assert (valid_bound Int16 D) as Hv by (split; [lia | exact Hmax]).
  assert (product_fits Int16 D) as Hf
      by (apply narrow_product_fits; [vm_compute; discriminate | exact Hv]).
  pose proof (exact_product_bound D Hpos e bonus He) as Hp.
  pose proof (exact_delta_bound D Hpos e bonus He) as Hd.
  pose proof (exact_sum_bound D Hpos e bonus He) as Hs.
  unfold product_fits in Hf.
  change (type_max (arith_type Int16)) with (type_max Int32) in Hf.
  assert (2 * D <= type_max Int32)
    by (change (type_max Int32) with 2147483647; lia).
  split; [reflexivity |].
  split; [apply in_range_abs; lia |].
  split; [apply in_range_abs; lia |].
  split; [apply in_range_abs; lia |].
  split; [apply in_range_abs; change (type_max Int16) with 32767; lia |].
  rewrite (update_exact Int16 D Hv Hf e bonus He). reflexivity.
Qed.

Lemma catalog_no_overflow_witness :
  Int16 = Int16
  /\ in_range Int32 (exact_product 30000 (-30000) 2147483647)
  /\ in_range Int32 (exact_delta 30000 (-30000) 2147483647)
  /\ in_range Int32 (exact_sum 30000 (-30000) 2147483647)
  /\ in_range Int16 (exact_sum 30000 (-30000) 2147483647)
  /\ entry (update Int16 30000 {| entry := -30000 |} 2147483647)
     = exact_sum 30000 (-30000) 2147483647.
Proof.
  apply (catalog_no_overflow Int16 30000 (-30000) 2147483647).
  - unfold catalog, PieceToHistory. cbn [In]. do 3 right. left. reflexivity.
  - vm_compute; discriminate.
Defined.

(** C10 (as amended).  For every value type and bound as in C1 and every
    stored value of magnitude at most [D], one update with a bonus of at
    least [D] stores exactly [D], and one update with a bonus of at most
    [-D] stores exactly [-D]. *)
Theorem update_full_bonus (T : ValueType) (D e bonus : Z) :
  valid_bound T D -> product_fits T D -> Z.abs e <= D ->
  (D <= bonus -> entry (update T D {| entry := e |} bonus) = D)
  /\ (bonus <= - D -> entry (update T D {| entry := e |} bonus) = - D).
Proof.
  intros Hv Hf He. rewrite (update_exact T D Hv Hf e bonus He). cbn [entry].
  destruct Hv as [Hpos _]. split; intros Hb.
  - apply exact_sum_full_pos; assumption.
  - apply exact_sum_full_neg; assumption.
Qed.

Lemma update_full_bonus_witness :
  entry (update Int16 5000 {| entry := -1234 |} 5000) = 5000
  /\ entry (update Int16 5000 {| entry := 4999 |} (-70000)) = -5000.
Proof.
  split.
  - apply (update_full_bonus Int16 5000 (-1234) 5000).
    + split; [reflexivity | vm_compute; discriminate].
    + vm_compute; discriminate.
    + vm_compute; discriminate.
    + vm_compute; discriminate.
  - apply (update_full_bonus Int16 5000 4999 (-70000)).
    + split; [reflexivity | vm_compute; discriminate].
    + vm_compute; discriminate.
    + vm_compute; discriminate.
    + vm_compute; discriminate.
Defined.

(** C10 as stated fails: [StatsEntry<int32_t, 65536>] holding -65536 and
    updated with the bonus 70000 stores 0, not the bound. *)
Lemma update_full_bonus_any_bound_counterexample :
  ~ (forall (T : ValueType) (D e bonus : Z),
        valid_bound T D -> Z.abs e <= D -> D <= bonus ->
        entry (update T D {| entry := e |} bonus) = D).
Proof.
  intros H.
  specialize (H Int32 65536 (-65536) 70000).
  assert (valid_bound Int32 65536) as Hv
      by (split; [reflexivity | vm_compute; discriminate]).
  specialize (H Hv ltac:(vm_compute; discriminate) ltac:(vm_compute; discriminate)).
  vm_compute in H. discriminate H.
Qed.

(** Repeating a full-magnitude bonus: after the first update the counter
    sits on the bound. *)
Lemma repeat_update_full_pos T D e n :
  valid_bound T D -> product_fits T D -> Z.abs e <= D ->
  repeat_update T D D (S n) {| entry := e |} = {| entry := D |}.
Proof.
  intros Hv Hf He. pose proof Hv as [Hpos _]. induction n as [| n IH].
  - cbn [repeat_update]. rewrite (update_exact T D Hv Hf e D He).
    f_equal. apply exact_sum_full_pos; lia.
  - change (repeat_update T D D (S (S n)) {| entry := e |})
      with (update T D (repeat_update T D D (S n) {| entry := e |}) D).
    rewrite IH. rewrite (update_exact T D Hv Hf D D) by lia.
    f_equal. apply exact_sum_full_pos; lia.
Qed.

Lemma repeat_update_full_neg T D e n :
  valid_bound T D -> product_fits T D -> Z.abs e <= D ->
  repeat_update T D (- D) (S n) {| entry := e |} = {| entry := - D |}.
Proof.
  intros Hv Hf He. pose proof Hv as [Hpos _]. induction n as [| n IH].
  - cbn [repeat_update]. rewrite (update_exact T D Hv Hf e (- D) He).
    f_equal. apply exact_sum_full_neg; lia.
  - change (repeat_update T D (- D) (S (S n)) {| entry := e |})
      with (update T D (repeat_update T D (- D) (S n) {| entry := e |}) (- D)).
    rewrite IH. rewrite (update_exact T D Hv Hf (- D) (- D)) by lia.
    f_equal. apply exact_sum_full_neg; lia.
Qed.

(** C4 (as amended).  For every value type and bound as in C1 and every
    starting value of magnitude at most [D], the values after 0, 1, 2, ...
    updates with the bonus [+D] never decrease, never exceed [D] and equal
    [D] from the first update on; with the bonus [-D] they never increase,
    never fall below [-D] and equal [-D] from the first update on. *)
Theorem repeated_full_bonus (T : ValueType) (D e : Z) :
  valid_bound T D -> product_fits T D -> Z.abs e <= D ->
  let up n := entry (repeat_update T D D n {| entry := e |}) in
  let down n := entry (repeat_update T D (- D) n {| entry := e |}) in
  (forall n, up n <= up (S n))
  /\ (forall n, up n <= D)
  /\ (forall n, (1 <= n)%nat -> up n = D)
  /\ (forall n, down (S n) <= down n)
  /\ (forall n, - D <= down n)
  /\ (forall n, (1 <= n)%nat -> down n = - D).
Proof.
  intros Hv Hf He up down.
  assert (forall n, up (S n) = D) as Hup
      by (intros n; unfold up; rewrite repeat_update_full_pos by assumption; reflexivity).
  assert (forall n, down (S n) = - D) as Hdown
      by (intros n; unfold down; rewrite repeat_update_full_neg by assumption; reflexivity).
  assert (up O = e) as Hup0 by reflexivity.
  assert (down O = e) as Hdown0 by reflexivity.
  repeat apply conj.
  - intros [| n]; rewrite ?Hup, ?Hup0; lia.
  - intros [| n]; rewrite ?Hup, ?Hup0; lia.
  - intros [| n] Hn; [lia | apply Hup].
  - intros [| n]; rewrite ?Hdown, ?Hdown0; lia.
  - intros [| n]; rewrite ?Hdown, ?Hdown0; lia.
  - intros [| n] Hn; [lia | apply Hdown].
Qed.

Lemma repeated_full_bonus_witness :
  entry (repeat_update Int16 1024 1024 3 {| entry := -1000 |}) = 1024
  /\ entry (repeat_update Int16 1024 (- 1024) 3 {| entry := -1000 |}) = -1024.
Proof.
  pose proof (repeated_full_bonus Int16 1024 (-1000)) as H.
  assert (valid_bound Int16 1024) as Hv
      by (split; [reflexivity | vm_compute; discriminate]).
  assert (product_fits Int16 1024) as Hf by (vm_compute; discriminate).
  assert (Z.abs (-1000) <= 1024) as He by (vm_compute; discriminate).
  destruct (H Hv Hf He) as (_ & _ & Hup & _ & _ & Hdown).
  split; [apply (Hup 3%nat) | apply (Hdown 3%nat)]; lia.
Defined.

(** C4 as stated fails: [StatsEntry<int32_t, 65536>] holding 65536 exceeds
    the bound after one update with the bonus [+D]. *)
Lemma repeated_full_bonus_any_bound_counterexample :
  ~ (forall (T : ValueType) (D e : Z) (n : nat),
        valid_bound T D -> Z.abs e <= D ->
        entry (repeat_update T D D n {| entry := e |}) <= D).
Proof.
  intros H.
  specialize (H Int32 65536 65536 1%nat).
  assert (valid_bound Int32 65536) as Hv
      by (split; [reflexivity | vm_compute; discriminate]).
  specialize (H Hv ltac:(vm_compute; discriminate)).
  vm_compute in H. apply H. reflexivity.
Qed.

(** ** The masking index functions *)

Lemma mask_index key k :
  0 <= k <= 30 ->
  to_int (Z.land key (to_u64 (2 ^ k - 1))) = Z.land key (2 ^ k - 1)
  /\ Z.land key (2 ^ k - 1) = key mod 2 ^ k
  /\ 0 <= key mod 2 ^ k < 2 ^ k.
Proof.
  intros Hk.
  assert (0 < 2 ^ k) as Hpos by (apply Z.pow_pos_nonneg; lia).
  assert (2 ^ k <= 2 ^ 30) as Hle by (apply Z.pow_le_mono_r; lia).
  change (2 ^ 30) with 1073741824 in Hle.
  assert (Z.land key (2 ^ k - 1) = key mod 2 ^ k) as Hland.
  { replace (2 ^ k - 1) with (Z.ones k) by (rewrite Z.ones_equiv; lia).
    apply Z.land_ones. lia. }
  pose proof (Z.mod_pos_bound key (2 ^ k) Hpos) as Hm.
  repeat apply conj; try lia; try exact Hland.
  unfold to_u64. rewrite (Z.mod_small (2 ^ k - 1))
    by (change (2 ^ 64) with 18446744073709551616; lia).
  rewrite Hland. apply wrap_small. unfold in_range.
  change (type_min Int32) with (-2147483648).
  change (type_max Int32) with 2147483647. lia.
Qed.

(** C6.  The three index functions return the key masked with the table
    size minus one (512 in [Normal] mode and 32768 in [Correction] mode for
    the pawn index, 32768 for the other two); the result is the key modulo
    that size, lies in [0, size), and equal keys give equal indices. *)
Theorem masking_indices (T : PawnHistoryType) (c : Color) (pos pos' : Position) :
  (pawn_history_size Normal = 512 /\ pawn_history_size Correction = 32768
   /\ CORRECTION_HISTORY_SIZE = 32768)
  /\ (pawn_structure_index T pos = Z.land (pawn_key pos) (pawn_history_size T - 1)
      /\ pawn_structure_index T pos = pawn_key pos mod pawn_history_size T
      /\ 0 <= pawn_structure_index T pos < pawn_history_size T
      /\ (pawn_key pos = pawn_key pos' ->
          pawn_structure_index T pos = pawn_structure_index T pos'))
  /\ (minor_piece_index pos = Z.land (minor_piece_key pos) (CORRECTION_HISTORY_SIZE - 1)
      /\ minor_piece_index pos = minor_piece_key pos mod CORRECTION_HISTORY_SIZE
      /\ 0 <= minor_piece_index pos < CORRECTION_HISTORY_SIZE
      /\ (minor_piece_key pos = minor_piece_key pos' ->
          minor_piece_index pos = minor_piece_index pos'))
  /\ (non_pawn_index c pos = Z.land (non_pawn_key pos c) (CORRECTION_HISTORY_SIZE - 1)
      /\ non_pawn_index c pos = non_pawn_key pos c mod CORRECTION_HISTORY_SIZE
      /\ 0 <= non_pawn_index c pos < CORRECTION_HISTORY_SIZE
      /\ (non_pawn_key pos c = non_pawn_key pos' c ->
          non_pawn_index c pos = non_pawn_index c pos')).
Proof.
  assert (forall key k size,
             size = 2 ^ k -> 0 <= k <= 30 ->
             to_int (Z.land key (to_u64 (size - 1))) = Z.land key (size - 1)
             /\ to_int (Z.land key (to_u64 (size - 1))) = key mod size
             /\ 0 <= to_int (Z.land key (to_u64 (size - 1))) < size) as Hmask.
  { intros key k size -> Hk. destruct (mask_index key k Hk) as (H1 & H2 & H3).
    rewrite H1, H2. repeat apply conj; try reflexivity; lia. }
  split; [repeat split |].
  split; [| split].
  - destruct (Hmask (pawn_key pos) (match T with Normal => 9 | Correction => 15 end)
                (pawn_history_size T)) as (H1 & H2 & H3).
    { destruct T; reflexivity. }
    { destruct T; lia. }
    unfold pawn_structure_index.
    repeat apply conj; try assumption; try lia.
    intros ->. reflexivity.
  - destruct (Hmask (minor_piece_key pos) 15 CORRECTION_HISTORY_SIZE) as (H1 & H2 & H3);
      [reflexivity | lia |].
    unfold minor_piece_index.
    repeat apply conj; try assumption; try lia.
    intros ->. reflexivity.
  - destruct (Hmask (non_pawn_key pos c) 15 CORRECTION_HISTORY_SIZE) as (H1 & H2 & H3);
      [reflexivity | lia |].
    unfold non_pawn_index.
    repeat apply conj; try assumption; try lia.
    intros ->. reflexivity.
Qed.

Lemma masking_indices_witness :
  pawn_structure_index Normal
    {| pawn_key := 18446744073709551615; minor_piece_key := 7;
       non_pawn_key := fun _ => 9 |}
  = pawn_structure_index Normal
    {| pawn_key := 18446744073709551615; minor_piece_key := 1000000;
       non_pawn_key := fun _ => 0 |}.
Proof.
  apply (masking_indices Normal WHITE
           {| pawn_key := 18446744073709551615; minor_piece_key := 7;
              non_pawn_key := fun _ => 9 |}
           {| pawn_key := 18446744073709551615; minor_piece_key := 1000000;
              non_pawn_key := fun _ => 0 |}).
  reflexivity.
Defined.

(** ** The knight index *)

Lemma knight_magic_length : length KnightMagic = 64%nat.
Proof. reflexivity. Qed.

(** X11.  Whatever the target bitboard, an origin on the board gives an
    index in [0, 256), the size of the last dimension of [KnightHistory]. *)
Lemma knight_attack_index_range (target : Z) (from : nat) :
  (from < 64)%nat ->
  exists i, knight_attack_index target from = Some i /\ 0 <= i < 256.
Proof.
  intros Hfrom. unfold knight_attack_index.
  destruct (KnightMagic !! from) as [magic |] eqn:Hm.
  - eexists; split; [reflexivity |].
    unfold to_u64. rewrite Z.shiftr_div_pow2 by lia.
    pose proof (Z.mod_pos_bound (target * magic) (2 ^ 64) ltac:(reflexivity)) as Hb.
    set (m := (target * magic) mod 2 ^ 64) in *.
    change (2 ^ 64) with 18446744073709551616 in Hb.
    change (2 ^ 56) with 72057594037927936.
    assert (0 <= m / 72057594037927936 < 256) as Hq.
    { split.
      - apply Z.div_pos; lia.
      - apply Z.div_lt_upper_bound; lia. }
    unfold to_int. rewrite wrap_small; [exact Hq |].
    unfold in_range. change (type_min Int32) with (-2147483648).
    change (type_max Int32) with 2147483647. lia.
  - apply lookup_ge_None in Hm. rewrite knight_magic_length in Hm. lia.
Qed.

Lemma square_bb_testbit q i :
  0 <= q -> Z.testbit (square_bb q) i = (q =? i).
Proof.
  intros Hq. unfold square_bb. rewrite Z.shiftl_1_l. apply Z.pow2_bits_eqb. exact Hq.
Qed.

(** The bit of one square in a subset equation. *)
Lemma subset_bb_bit s mask i :
  subset_bb s mask -> Z.testbit s i = true -> Z.testbit mask i = true.
Proof.
  unfold subset_bb. intros Hs Hb.
  apply (f_equal (fun z => Z.testbit z i)) in Hs.
  rewrite Z.land_spec, Hb in Hs. exact Hs.
Qed.

Lemma subset_bb_intro s mask :
  (forall i, Z.testbit s i = true -> Z.testbit mask i = true) -> subset_bb s mask.
Proof.
  intros H. unfold subset_bb. apply Z.bits_inj. intros i.
  rewrite Z.land_spec. specialize (H i).
  destruct (Z.testbit s i); [rewrite H by reflexivity |]; reflexivity.
Qed.

(** [subsets_bb] lists every sub-bitboard of the squares it is given. *)
Lemma subsets_bb_complete (sqs : list Z) :
  List.Forall (fun q => 0 <= q) sqs ->
  forall s, subset_bb s (bb_of sqs) -> In s (subsets_bb sqs).
Proof.
  induction 1 as [| q r Hq Hr IH]; intros s Hs.
  - cbn in *. unfold subset_bb in Hs. rewrite Z.land_0_r in Hs. left. exact Hs.
  - cbn [subsets_bb bb_of List.fold_right] in *. fold (bb_of r) in Hs.
    apply in_or_app.
    destruct (Z.testbit s q) eqn:Hbit.
    + right. apply in_map_iff. exists (Z.ldiff s (square_bb q)). split.
      * apply Z.bits_inj. intros i.
        rewrite Z.lor_spec, Z.ldiff_spec, square_bb_testbit by exact Hq.
        destruct (Z.eqb_spec q i) as [-> | Hne]; cbn.
        -- symmetry. exact Hbit.
        -- rewrite andb_true_r. reflexivity.
      * apply IH. apply subset_bb_intro. intros i.
        rewrite Z.ldiff_spec, square_bb_testbit by exact Hq.
        intros Hi. apply andb_true_iff in Hi as [Hsi Hqi].
        pose proof (subset_bb_bit _ _ i Hs Hsi) as Hm.
        rewrite Z.lor_spec, square_bb_testbit in Hm by exact Hq.
        destruct (q =? i); [discriminate | exact Hm].
    + left. apply IH. apply subset_bb_intro. intros i Hsi.
      pose proof (subset_bb_bit _ _ i Hs Hsi) as Hm.
      rewrite Z.lor_spec, square_bb_testbit in Hm by exact Hq.
      destruct (Z.eqb_spec q i) as [-> | Hne]; [congruence | exact Hm].
Qed.

Lemma knight_targets_nonneg from : List.Forall (fun q => 0 <= q) (knight_targets from).
Proof.
  unfold knight_targets. apply List.Forall_forall. intros q Hq.
  apply List.in_flat_map in Hq as (to & Hto & Hq). unfold all_squares in Hto.
  apply in_map_iff in Hto as (n & <- & _).
  destruct (knight_move (Z.of_nat from) (Z.of_nat n)); [| contradiction].
  destruct Hq as [<- | []]. lia.
Qed.

(** A list of hash values without repetition comes from an injective hash. *)
Lemma distinct_inj (f : Z -> option Z) (l : list Z) :
  distinct (List.map f l) = true ->
  forall x y, In x l -> In y l -> f x = f y -> x = y.
Proof.
  induction l as [| a r IH]; intros Hd x y Hx Hy Hxy; [contradiction |].
  cbn [List.map distinct] in Hd. apply andb_true_iff in Hd as [Hhead Htail].
  apply negb_true_iff in Hhead.
  assert (forall z, In z r -> f a <> f z) as Hfresh.
  { intros z Hz Heq.
    assert (existsb (fun y0 => bool_decide (f a = y0)) (List.map f r) = true) as Hex.
    { apply existsb_exists. exists (f z). split.
      - apply in_map. exact Hz.
      - apply bool_decide_eq_true. exact Heq. }
    congruence. }
  destruct Hx as [<- | Hx], Hy as [<- | Hy].
  - reflexivity.
  - exfalso. apply (Hfresh y Hy). exact Hxy.
  - exfalso. apply (Hfresh x Hx). symmetry. exact Hxy.
  - apply IH; assumption.
Qed.

Lemma indices_injective (from : nat) (l : list Z) :
  distinct (indices from l) = true ->
  forall s1 s2, In s1 l -> In s2 l ->
    knight_attack_index s1 from = knight_attack_index s2 from -> s1 = s2.
Proof.
  unfold indices. intros Hd s1 s2 H1 H2 Heq.
  exact (distinct_inj (fun b => knight_attack_index b from) l Hd s1 s2 H1 H2 Heq).
Qed.

Lemma off_centre_check :
  List.forallb
    (fun f => bool_decide (In f central_origins)
              || distinct (indices f (subsets_bb (knight_targets f))))
    (List.seq 0 64) = true.
Proof. vm_compute. reflexivity. Qed.

Lemma centre_check :
  List.forallb (fun f => distinct (indices f (proper_subsets f))) central_origins
  = true.
Proof. vm_compute. reflexivity. Qed.

(** X12.  Outside the twelve central origins the hash is injective on the
    subsets of the origin's destination set: two subsets with the same index
    are the same subset. *)
Lemma knight_attack_index_injective_off_centre (from : nat) (s1 s2 : Z) :
  (from < 64)%nat -> ~ In from central_origins ->
  subset_bb s1 (knight_attacks_bb from) ->
  subset_bb s2 (knight_attacks_bb from) ->
  knight_attack_index s1 from = knight_attack_index s2 from ->
  s1 = s2.
Proof.
  intros Hfrom Hnc H1 H2 Heq.
  pose proof (proj1 (List.forallb_forall _ _) off_centre_check) as Hall.
  specialize (Hall from ltac:(apply List.in_seq; lia)).
  apply orb_true_iff in Hall as [Hc | Hd].
  - apply bool_decide_eq_true in Hc. contradiction.
  - pose proof (subsets_bb_complete _ (knight_targets_nonneg from)) as Hin.
    apply Hin in H1. apply Hin in H2.
    exact (indices_injective from _ Hd s1 s2 H1 H2 Heq).
Qed.

(** On a central origin the hash is injective on the proper subsets of the
    destination set: the only clash is the one with the full set. *)
Lemma knight_attack_index_injective_proper (from : nat) (s1 s2 : Z) :
  In from central_origins ->
  subset_bb s1 (knight_attacks_bb from) -> s1 <> knight_attacks_bb from ->
  subset_bb s2 (knight_attacks_bb from) -> s2 <> knight_attacks_bb from ->
  knight_attack_index s1 from = knight_attack_index s2 from ->
  s1 = s2.
Proof.
  intros Hc H1 Hn1 H2 Hn2 Heq.
  pose proof (proj1 (List.forallb_forall _ _) centre_check from Hc) as Hall.
  assert (forall s, subset_bb s (knight_attacks_bb from) ->
                    s <> knight_attacks_bb from -> In s (proper_subsets from)) as Hin.
  { intros s Hs Hne. apply List.filter_In. split.
    - exact (subsets_bb_complete _ (knight_targets_nonneg from) s Hs).
    - apply negb_true_iff. apply Z.eqb_neq. exact Hne. }
  exact (indices_injective from _ Hall s1 s2 (Hin s1 H1 Hn1) (Hin s2 H2 Hn2) Heq).
Qed.

(** On each of the twelve central origins the empty set and the full
    destination set share the index 0. *)
Lemma knight_attack_index_central_collisions :
  List.Forall
    (fun from =>
       knight_attacks_bb from <> 0
       /\ knight_attack_index 0 from = Some 0
       /\ knight_attack_index (knight_attacks_bb from) from = Some 0)
    central_origins.
Proof. repeat constructor; vm_compute; congruence. Qed.

(** C2 at its failing input.  For the origin square 18 the empty bitboard
    and the full destination set (squares 1, 3, 8, 12, 24, 28, 33 and 35, the
    bitboard 43234889994) are two distinct subsets of the destination set,
    and the multiply-shift sends both to the index 0. *)
Theorem knight_attack_index_collision :
  knight_attacks_bb 18 = 43234889994
  /\ subset_bb 0 (knight_attacks_bb 18)
  /\ subset_bb 43234889994 (knight_attacks_bb 18)
  /\ 0 <> 43234889994
  /\ knight_attack_index 0 18 = Some 0
  /\ knight_attack_index 43234889994 18 = Some 0.
Proof. repeat split; vm_compute; congruence. Qed.

(** ** Multi-dimensional tables *)
Section Tables.

Local Open Scope nat_scope.

Lemma offset_lt shape : forall coords o,
  offset shape coords = Some o -> o < cell_count shape.
Proof.
  induction shape as [| n ns IH]; intros [| c cs] o Ho; cbn [offset] in Ho; try discriminate.
  - inversion Ho. cbn. lia.
  - destruct (c <? n) eqn:Hc; [| discriminate]. apply Nat.ltb_lt in Hc.
    destruct (offset ns cs) as [o' |] eqn:Ho'; [| discriminate].
    inversion Ho; subst o. specialize (IH cs o' Ho').
    change (cell_count (n :: ns)) with (n * cell_count ns). nia.
Qed.

Lemma offset_in_bounds shape : forall coords,
  in_bounds shape coords = true -> exists o, offset shape coords = Some o.
Proof.
  induction shape as [| n ns IH]; intros [| c cs] Hb; cbn [in_bounds] in Hb; try discriminate.
  - exists 0. reflexivity.
  - apply andb_true_iff in Hb as [Hc Hcs].
    destruct (IH cs Hcs) as [o Ho]. cbn [offset]. rewrite Hc, Ho. eauto.
Qed.

Lemma offset_some_in_bounds shape : forall coords o,
  offset shape coords = Some o -> in_bounds shape coords = true.
Proof.
  induction shape as [| n ns IH]; intros [| c cs] o Ho; cbn [offset] in Ho; try discriminate.
  - reflexivity.
  - cbn [in_bounds]. destruct (c <? n); [| discriminate].
    destruct (offset ns cs) as [o' |] eqn:Ho'; [| discriminate].
    cbn [andb]. eapply IH. exact Ho'.
Qed.

(** Distinct coordinate tuples of a shape address distinct cells. *)
Lemma offset_inj shape : forall c c' o,
  offset shape c = Some o -> offset shape c' = Some o -> c = c'.
Proof.
  induction shape as [| n ns IH]; intros [| x cs] [| y cs'] o H H'; cbn [offset] in H, H';
    try discriminate; try reflexivity.
  destruct (x <? n); [| discriminate]. destruct (y <? n); [| discriminate].
  destruct (offset ns cs) as [o1 |] eqn:H1; [| discriminate].
  destruct (offset ns cs') as [o2 |] eqn:H2; [| discriminate].
  inversion H as [Ho]; inversion H' as [Ho']; rewrite <- Ho in Ho'; clear H H'.
  pose proof (offset_lt ns cs o1 H1). pose proof (offset_lt ns cs' o2 H2).
  assert (x = y) by nia. subst y.
  assert (o1 = o2) by lia. subst o2.
  f_equal. eapply IH; eassumption.
Qed.

Lemma store_sizes t c v t' : store t c v = Some t' -> sizes t' = sizes t.
Proof.
  unfold store. destruct (offset (sizes t) c); [| discriminate].
  destruct (cells t !! n); [| discriminate]. intros H; inversion H. reflexivity.
Qed.

Lemma store_well_formed t c v t' :
  well_formed t -> store t c v = Some t' -> well_formed t'.
Proof.
  unfold well_formed, store. intros Hwf.
  destruct (offset (sizes t) c); [| discriminate].
  destruct (cells t !! n); [| discriminate]. intros H; inversion H; cbn.
  rewrite length_insert. exact Hwf.
Qed.

Lemma store_defined t c v :
  well_formed t -> in_bounds (sizes t) c = true -> exists t', store t c v = Some t'.
Proof.
  intros Hwf Hb. destruct (offset_in_bounds _ _ Hb) as [o Ho].
  pose proof (offset_lt _ _ _ Ho) as Hlt. rewrite <- Hwf in Hlt.
  destruct (lookup_lt_is_Some_2 (cells t) o Hlt) as [se Hse].
  unfold store. rewrite Ho, Hse. eauto.
Qed.

(** A stored value is read back at its coordinate tuple. *)
Lemma load_store_same t c v t' : store t c v = Some t' -> load t' c = Some v.
Proof.
  unfold store, load, index.
  destruct (offset (sizes t) c) as [i |] eqn:Hi; [| discriminate].
  destruct (cells t !! i) as [se |] eqn:Hse; [| discriminate].
  intros H; inversion H; cbn. rewrite Hi.
  rewrite list_lookup_insert_eq by (eapply lookup_lt_Some; exact Hse).
  reflexivity.
Qed.

(** A store leaves every other coordinate tuple as it was. *)
Lemma load_store_other t c c' v t' :
  store t c v = Some t' -> c' <> c -> load t' c' = load t c'.
Proof.
  unfold store, load, index.
  destruct (offset (sizes t) c) as [i |] eqn:Hi; [| discriminate].
  destruct (cells t !! i) as [se |] eqn:Hse; [| discriminate].
  intros H Hne; inversion H; cbn.
  destruct (offset (sizes t) c') as [j |] eqn:Hj; [| reflexivity].
  rewrite list_lookup_insert_ne; [reflexivity |].
  intros ->. apply Hne. eapply offset_inj; eassumption.
Qed.

Lemma all_coords_complete shape : forall c,
  in_bounds shape c = true -> In c (all_coords shape).
Proof.
  induction shape as [| n ns IH]; intros [| x cs] Hb; cbn [in_bounds] in Hb; try discriminate.
  - left. reflexivity.
  - apply andb_true_iff in Hb as [Hx Hcs]. apply Nat.ltb_lt in Hx.
    cbn [all_coords]. apply List.in_flat_map. exists x. split.
    + apply List.in_seq. lia.
    + apply in_map. apply IH. exact Hcs.
Qed.

Lemma all_coords_in_bounds shape : forall c,
  In c (all_coords shape) -> in_bounds shape c = true.
Proof.
  induction shape as [| n ns IH]; intros c Hc; cbn [all_coords] in Hc.
  - destruct Hc as [<- | []]. reflexivity.
  - apply List.in_flat_map in Hc as (x & Hx & Hc).
    apply in_map_iff in Hc as (cs & <- & Hcs).
    apply List.in_seq in Hx. cbn [in_bounds].
    apply andb_true_iff. split; [apply Nat.ltb_lt; lia | apply IH; exact Hcs].
Qed.

(** Writing the markers of a list of in-bounds coordinate tuples succeeds;
    afterwards each listed tuple holds its own marker and every other
    tuple holds what it held before. *)
Lemma write_all_spec (marker : list nat -> Z) (cs : list (list nat)) :
  forall t,
    well_formed t ->
    List.Forall (fun c => in_bounds (sizes t) c = true) cs ->
    exists t',
      write_all marker cs t = Some t'
      /\ sizes t' = sizes t
      /\ well_formed t'
      /\ forall c, (In c cs -> load t' c = Some (marker c))
                   /\ (~ In c cs -> load t' c = load t c).
Proof.
  induction cs as [| a rest IH]; intros t Hwf Hall.
  - exists t. split; [reflexivity |]. split; [reflexivity |]. split; [exact Hwf |].
    intros c. split; [intros [] | reflexivity].
  - inversion Hall as [| ? ? Ha Hrest]; subst.
    destruct (store_defined t a (marker a) Hwf Ha) as [t1 Ht1].
    pose proof (store_sizes _ _ _ _ Ht1) as Hs1.
    pose proof (store_well_formed _ _ _ _ Hwf Ht1) as Hwf1.
    destruct (IH t1 Hwf1) as (t' & Hw & Hs & Hwf' & Hload).
    { rewrite Hs1. exact Hrest. }
    exists t'. cbn [write_all]. rewrite Ht1.
    split; [exact Hw |]. split; [congruence |]. split; [exact Hwf' |].
    intros c. destruct (Hload c) as [Hin Hout].
    destruct (List.in_dec (List.list_eq_dec Nat.eq_dec) c rest) as [Hc | Hc].
    + split; [intros _; apply Hin; exact Hc |].
      intros Hn. exfalso. apply Hn. right. exact Hc.
    + split.
      * intros [<- | Hc']; [| contradiction].
        rewrite (Hout Hc). eapply load_store_same. exact Ht1.
      * intros Hn. rewrite (Hout Hc). eapply load_store_other; [exact Ht1 |].
        intros ->. apply Hn. left. reflexivity.
Qed.

Lemma construct_well_formed shape : well_formed (construct shape).
Proof. unfold well_formed, construct; cbn. apply length_replicate. Qed.

End Tables.

(** C7.  In every table, distinct coordinate tuples within the bounds
    address distinct cells, a stored value is read back at its tuple while
    every other tuple keeps its value, and after a marker has been written
    at every coordinate tuple of the shape each tuple reads back exactly its
    own marker and no marker of a tuple that was given a different one. *)
Theorem table_round_trip (t : MultiArray) (marker : list nat -> Z) :
  well_formed t ->
  (forall c c' i, offset (sizes t) c = Some i -> offset (sizes t) c' = Some i -> c = c')
  /\ (forall c c' v t', store t c v = Some t' ->
        load t' c = Some v /\ (c' <> c -> load t' c' = load t c'))
  /\ exists t',
       write_all marker (all_coords (sizes t)) t = Some t'
       /\ forall c, in_bounds (sizes t) c = true ->
            load t' c = Some (marker c)
            /\ forall c', in_bounds (sizes t) c' = true ->
                 marker c' <> marker c -> load t' c <> Some (marker c').
Proof.
  intros Hwf. split; [| split].
  - intros c c' i. apply offset_inj.
  - intros c c' v t' Hst. split.
    + eapply load_store_same. exact Hst.
    + intros Hne. eapply load_store_other; eassumption.
  - destruct (write_all_spec marker (all_coords (sizes t)) t Hwf) as (t' & Hw & _ & _ & Hload).
    { apply List.Forall_forall. intros c. apply all_coords_in_bounds. }
    exists t'. split; [exact Hw |].
    intros c Hc.
    assert (load t' c = Some (marker c)) as Hrd
        by (apply Hload, all_coords_complete; exact Hc).
    split; [exact Hrd |].
    intros c' _ Hne. rewrite Hrd. congruence.
Qed.

Lemma table_round_trip_witness :
  exists t',
    write_all (fun c => Z.of_nat (list_sum c) + 100 * Z.of_nat (hd 0%nat c))
      (all_coords [2; 3]%nat) (construct [2; 3]%nat) = Some t'
    /\ load t' [1; 2]%nat = Some 103.
Proof.
  destruct (table_round_trip (construct [2; 3]%nat)
              (fun c => Z.of_nat (list_sum c) + 100 * Z.of_nat (hd 0%nat c))
              (construct_well_formed [2; 3]%nat)) as (_ & _ & t' & Hw & Hrd).
  exists t'. split; [exact Hw |].
  exact (proj1 (Hrd [1; 2]%nat eq_refl)).
Defined.


(** The table in which every cell was given the value zero is one of the
    default-constructed tables of its shape. *)
Lemma construct_default_constructed T shape :
  default_constructed T shape (construct shape).
Proof.
  split; [reflexivity | split; [apply construct_well_formed |]].
  unfold construct; cbn [cells].
  induction (cell_count shape) as [| n IH]; cbn; constructor; [| exact IH].
  unfold default_initialized, value_init; cbn [entry].
  split; destruct T; vm_compute; discriminate.
Qed.





(** ** Further properties of the update *)
Section UpdateShape.

Variable D : Z.
Hypothesis D_pos : 0 < D.

(** Truncating division by [D]: the remainder keeps the sign of the
    dividend. *)
Lemma quot_bounds a :
  (0 <= a -> 0 <= a - D * Z.quot a D < D)
  /\ (a <= 0 -> - D < a - D * Z.quot a D <= 0).
Proof.
  pose proof (Z.quot_rem' a D) as Hq. split; intros Ha.
  - pose proof (Z.rem_bound_pos_pos a D D_pos Ha). lia.
  - pose proof (Z.rem_bound_pos_neg a D D_pos Ha). lia.
Qed.

Lemma exact_sum_step e bonus :
  exact_sum D e bonus = step D e (clamp bonus (- D) D).
Proof. reflexivity. Qed.

Lemma step_opp e c : step D (- e) (- c) = - step D e c.
Proof.
  unfold step. rewrite Z.abs_opp.
  replace (- e * Z.abs c) with (- (e * Z.abs c)) by ring.
  rewrite Z.quot_opp_l by lia. ring.
Qed.

Lemma clamp_opp bonus : clamp (- bonus) (- D) D = - clamp bonus (- D) D.
Proof.
  unfold clamp.
  destruct (Z.ltb_spec (- bonus) (- D)), (Z.ltb_spec D (- bonus)),
    (Z.ltb_spec bonus (- D)), (Z.ltb_spec D bonus); lia.
Qed.

Lemma clamp_mono b1 b2 :
  b1 <= b2 -> clamp b1 (- D) D <= clamp b2 (- D) D.
Proof.
  unfold clamp. intros H.
  destruct (Z.ltb_spec b1 (- D)), (Z.ltb_spec D b1),
    (Z.ltb_spec b2 (- D)), (Z.ltb_spec D b2); lia.
Qed.

(** A non-negative bonus on a non-negative value: the value grows by at
    most the bonus. *)
Lemma step_pos_pos e c :
  0 <= e <= D -> 0 <= c <= D -> e <= step D e c <= e + c.
Proof.
  intros He Hc. unfold step. rewrite (Z.abs_eq c) by lia.
  destruct (quot_bounds (e * c)) as [Hq _]. specialize (Hq ltac:(nia)).
  set (q := Z.quot (e * c) D) in *. nia.
Qed.

(** A non-negative bonus on a non-positive value: the value grows by at
    least the bonus and at most twice the bonus. *)
Lemma step_neg_pos e c :
  - D <= e <= 0 -> 0 <= c <= D -> e + c <= step D e c <= e + 2 * c.
Proof.
  intros He Hc. unfold step. rewrite (Z.abs_eq c) by lia.
  destruct (quot_bounds (e * c)) as [_ Hq]. specialize (Hq ltac:(nia)).
  set (q := Z.quot (e * c) D) in *. nia.
Qed.

(** A positive bonus moves every value below the bound strictly up. *)
Lemma step_pos_strict e c :
  - D <= e < D -> 0 < c <= D -> e < step D e c.
Proof.
  intros He Hc. destruct (Z_le_gt_dec 0 e).
  - unfold step. rewrite (Z.abs_eq c) by lia.
    destruct (quot_bounds (e * c)) as [Hq _]. specialize (Hq ltac:(nia)).
    set (q := Z.quot (e * c) D) in *. nia.
  - pose proof (step_neg_pos e c ltac:(lia) ltac:(lia)). lia.
Qed.

(** On the bound a bonus of the same direction changes nothing. *)
Lemma step_at_bound c : 0 <= c -> step D D c = D.
Proof.
  intros Hc. unfold step. rewrite (Z.abs_eq c) by lia.
  rewrite (Z.mul_comm D c), Z.quot_mul by lia. lia.
Qed.

(** The step is monotone in the stored value. *)
Lemma step_mono_value e1 e2 c :
  - D <= c <= D -> e1 <= e2 -> step D e1 c <= step D e2 c.
Proof.
  intros Hc He. unfold step.
  assert (0 <= Z.abs c <= D) as Hk by lia.
  set (k := Z.abs c) in *.
  destruct (quot_bounds (e1 * k)) as [Hp1 Hn1].
  destruct (quot_bounds (e2 * k)) as [Hp2 Hn2].
  set (q1 := Z.quot (e1 * k) D) in *. set (q2 := Z.quot (e2 * k) D) in *.
  assert (q2 - q1 <= e2 - e1); [| lia].
  destruct (Z_le_gt_dec 0 (e1 * k)) as [H1 | H1];
    destruct (Z_le_gt_dec 0 (e2 * k)) as [H2 | H2];
    try specialize (Hp1 ltac:(lia)); try specialize (Hp2 ltac:(lia));
    try specialize (Hn1 ltac:(lia)); try specialize (Hn2 ltac:(lia)); nia.
Qed.

(** For a non-negative clamped bonus the step is monotone in the bonus. *)
Lemma step_mono_bonus_nonneg e c1 c2 :
  - D <= e <= D -> 0 <= c1 -> c1 <= c2 -> step D e c1 <= step D e c2.
Proof.
  intros He Hc1 Hc. unfold step.
  rewrite (Z.abs_eq c1), (Z.abs_eq c2) by lia.
  destruct (quot_bounds (e * c1)) as [Hp1 Hn1].
  destruct (quot_bounds (e * c2)) as [Hp2 Hn2].
  set (q1 := Z.quot (e * c1) D) in *. set (q2 := Z.quot (e * c2) D) in *.
  assert (q2 - q1 <= c2 - c1); [| lia].
  destruct (Z_le_gt_dec 0 e) as [H | H].
  - specialize (Hp1 ltac:(nia)). specialize (Hp2 ltac:(nia)). nia.
  - specialize (Hn1 ltac:(nia)). specialize (Hn2 ltac:(nia)). nia.
Qed.

End UpdateShape.

Section UpdateShapeSigned.

Variable D : Z.
Hypothesis D_pos : 0 < D.

(** A non-positive bonus mirrors the non-negative one. *)
Lemma step_nonpos e c :
  - D <= e <= D -> - D <= c <= 0 ->
  e + 2 * c <= step D e c <= e /\ (e <= 0 -> e + c <= step D e c).
Proof.
  intros He Hc. pose proof (step_opp D D_pos e c) as Ho.
  destruct (Z_le_gt_dec 0 (- e)) as [H | H].
  - pose proof (step_pos_pos D D_pos (- e) (- c) ltac:(lia) ltac:(lia)). lia.
  - pose proof (step_neg_pos D D_pos (- e) (- c) ltac:(lia) ltac:(lia)). lia.
Qed.

Lemma step_nonneg e c :
  - D <= e <= D -> 0 <= c <= D ->
  e <= step D e c <= e + 2 * c /\ (0 <= e -> step D e c <= e + c).
Proof.
  intros He Hc. destruct (Z_le_gt_dec 0 e) as [H | H].
  - pose proof (step_pos_pos D D_pos e c ltac:(lia) ltac:(lia)). lia.
  - pose proof (step_neg_pos D D_pos e c ltac:(lia) ltac:(lia)). lia.
Qed.

Lemma step_neg_strict e c :
  - D < e <= D -> - D <= c < 0 -> step D e c < e.
Proof.
  intros He Hc. pose proof (step_opp D D_pos e c) as Ho.
  pose proof (step_pos_strict D D_pos (- e) (- c) ltac:(lia) ltac:(lia)). lia.
Qed.

Lemma step_at_lower_bound c : c <= 0 -> step D (- D) c = - D.
Proof.
  intros Hc. pose proof (step_opp D D_pos D (- c)) as Ho.
  rewrite Z.opp_involutive in Ho. rewrite Ho.
  rewrite (step_at_bound D D_pos (- c)) by lia. reflexivity.
Qed.

Lemma step_zero e : step D e 0 = e.
Proof. unfold step. cbn [Z.abs]. rewrite Z.mul_0_r, Z.quot_0_l by lia. lia. Qed.

(** The step is monotone in the clamped bonus over the whole of [-D, D]. *)
Lemma step_mono_bonus e c1 c2 :
  - D <= e <= D -> - D <= c1 -> c1 <= c2 -> c2 <= D ->
  step D e c1 <= step D e c2.
Proof.
  intros He Hlo Hc Hhi.
  destruct (Z_le_gt_dec 0 c1) as [H1 | H1].
  - apply step_mono_bonus_nonneg; lia.
  - destruct (Z_le_gt_dec c2 0) as [H2 | H2].
    + pose proof (step_mono_bonus_nonneg D D_pos (- e) (- c2) (- c1)
                    ltac:(lia) ltac:(lia) ltac:(lia)) as Hm.
      rewrite !(step_opp D D_pos) in Hm. lia.
    + pose proof (step_nonpos e c1 ltac:(lia) ltac:(lia)).
      pose proof (step_nonneg e c2 ltac:(lia) ltac:(lia)). lia.
Qed.

(** A step leaves the value as it is only for the bonus zero, or on the
    bound the bonus points to. *)
Lemma step_fixed e c :
  - D <= e <= D -> - D <= c <= D ->
  (step D e c = e <-> c = 0 \/ (0 < c /\ e = D) \/ (c < 0 /\ e = - D)).
Proof.
  intros He Hc. split.
  - intros Hfix.
    destruct (Z.lt_trichotomy c 0) as [Hn | [Hz | Hp]].
    + destruct (Z.eq_dec e (- D)) as [-> | Hne]; [lia |].
      pose proof (step_neg_strict e c ltac:(lia) ltac:(lia)). lia.
    + lia.
    + destruct (Z.eq_dec e D) as [-> | Hne]; [lia |].
      pose proof (step_pos_strict D D_pos e c ltac:(lia) ltac:(lia)). lia.
  - intros [-> | [[Hp ->] | [Hn ->]]].
    + apply step_zero.
    + apply step_at_bound; lia.
    + apply step_at_lower_bound; lia.
Qed.

Lemma clamp_sign bonus :
  (0 <= bonus -> 0 <= clamp bonus (- D) D)
  /\ (bonus <= 0 -> clamp bonus (- D) D <= 0)
  /\ (0 < bonus -> 0 < clamp bonus (- D) D)
  /\ (bonus < 0 -> clamp bonus (- D) D < 0).
Proof.
  unfold clamp.
  destruct (Z.ltb_spec bonus (- D)), (Z.ltb_spec D bonus); lia.
Qed.

End UpdateShapeSigned.

(** X1.  Direction and size of one update, for a value type and bound whose
    product cannot overflow and a stored value within the bound: a
    non-negative bonus never lowers the value and raises it by at most twice
    the clamped bonus (by at most the clamped bonus when the value is not
    negative); a non-positive bonus mirrors this. *)
Theorem update_direction (T : ValueType) (D e bonus : Z) :
  valid_bound T D -> product_fits T D -> Z.abs e <= D ->
  let c := clamp bonus (- D) D in
  let e' := entry (update T D {| entry := e |} bonus) in
  (0 <= bonus -> e <= e' <= e + 2 * c /\ (0 <= e -> e' <= e + c))
  /\ (bonus <= 0 -> e + 2 * c <= e' <= e /\ (e <= 0 -> e + c <= e')).
Proof.
  intros Hv Hf He c e'. pose proof Hv as [Hpos _].
  assert (e' = step D e c) as ->
      by (unfold e'; rewrite (update_exact T D Hv Hf e bonus He); reflexivity).
  pose proof (clamp_bounds D Hpos bonus) as Hc. fold c in Hc.
  pose proof (clamp_sign D Hpos bonus) as (Hs1 & Hs2 & _). fold c in Hs1, Hs2.
  split; intros Hb.
  - apply step_nonneg; lia.
  - apply step_nonpos; lia.
Qed.

Lemma update_direction_witness :
  7000 <= entry (update Int16 7183 {| entry := 7000 |} 300) <= 7000 + 2 * 300
  /\ (0 <= 7000 -> entry (update Int16 7183 {| entry := 7000 |} 300) <= 7000 + 300).
Proof.
  apply (update_direction Int16 7183 7000 300).
  - split; [reflexivity | vm_compute; discriminate].
  - vm_compute; discriminate.
  - vm_compute; discriminate.
  - vm_compute; discriminate.
Defined.

(** X2.  Under the same conditions an update leaves the stored value as it
    was exactly when the bonus is zero, or the bonus is positive and the
    value already is [D], or the bonus is negative and the value already is
    [-D]: every other update moves the value. *)
Theorem update_no_op_iff (T : ValueType) (D e bonus : Z) :
  valid_bound T D -> product_fits T D -> Z.abs e <= D ->
  (entry (update T D {| entry := e |} bonus) = e
   <-> bonus = 0 \/ (0 < bonus /\ e = D) \/ (bonus < 0 /\ e = - D)).
Proof.
  intros Hv Hf He. pose proof Hv as [Hpos _].
  rewrite (update_exact T D Hv Hf e bonus He). cbn [entry].
  rewrite (exact_sum_step D e bonus).
  pose proof (clamp_bounds D Hpos bonus) as Hc.
  pose proof (clamp_sign D Hpos bonus) as (Hs1 & Hs2 & Hs3 & Hs4).
  rewrite (step_fixed D Hpos e _ ltac:(lia) Hc).
  split; intros [H | [[H1 H2] | [H1 H2]]].
  - left. destruct (Z.lt_trichotomy bonus 0) as [Hn | [Hz | Hp]]; [| exact Hz |].
    + specialize (Hs4 Hn). lia.
    + specialize (Hs3 Hp). lia.
  - right; left. split; [| exact H2].
    destruct (Z_le_gt_dec bonus 0) as [Hle | Hgt]; [specialize (Hs2 Hle); lia | lia].
  - right; right. split; [| exact H2].
    destruct (Z_le_gt_dec 0 bonus) as [Hle | Hgt]; [specialize (Hs1 Hle); lia | lia].
  - left. subst bonus. apply (clamp_inside D 0). lia.
  - right; left. split; [apply Hs3; exact H1 | exact H2].
  - right; right. split; [apply Hs4; exact H1 | exact H2].
Qed.

Lemma update_no_op_iff_witness :
  entry (update Int16 1024 {| entry := 1024 |} 7) = 1024.
Proof.
  apply (update_no_op_iff Int16 1024 1024 7).
  - split; [reflexivity | vm_compute; discriminate].
  - vm_compute; discriminate.
  - vm_compute; discriminate.
  - right; left. split; reflexivity.
Defined.

(** X3.  The update is odd: under the same conditions, negating both the
    stored value and the bonus negates the result. *)
Theorem update_odd (T : ValueType) (D e bonus : Z) :
  valid_bound T D -> product_fits T D -> Z.abs e <= D ->
  entry (update T D {| entry := - e |} (- bonus))
  = - entry (update T D {| entry := e |} bonus).
Proof.
  intros Hv Hf He. pose proof Hv as [Hpos _].
  rewrite (update_exact T D Hv Hf e bonus He).
  rewrite (update_exact T D Hv Hf (- e) (- bonus)) by lia.
  cbn [entry]. rewrite !(exact_sum_step D).
  rewrite (clamp_opp D Hpos). apply step_opp. exact Hpos.
Qed.

Lemma update_odd_witness :
  entry (update Int16 8192 {| entry := - 5000 |} (- 777))
  = - entry (update Int16 8192 {| entry := 5000 |} 777).
Proof.
  apply (update_odd Int16 8192 5000 777).
  - split; [reflexivity | vm_compute; discriminate].
  - vm_compute; discriminate.
  - vm_compute; discriminate.
Defined.

(** X4.  The update keeps the order of stored values: under the same
    conditions, of two counters within the bound that receive the same
    bonus, the one that held the smaller value does not end up with the
    larger one. *)
Theorem update_monotone_value (T : ValueType) (D e1 e2 bonus : Z) :
  valid_bound T D -> product_fits T D ->
  Z.abs e1 <= D -> Z.abs e2 <= D -> e1 <= e2 ->
  entry (update T D {| entry := e1 |} bonus)
  <= entry (update T D {| entry := e2 |} bonus).
Proof.
  intros Hv Hf H1 H2 Hle. pose proof Hv as [Hpos _].
  rewrite (update_exact T D Hv Hf e1 bonus H1).
  rewrite (update_exact T D Hv Hf e2 bonus H2).
  cbn [entry]. rewrite !(exact_sum_step D).
  apply step_mono_value; [exact Hpos | apply clamp_bounds; exact Hpos | exact Hle].
Qed.

Lemma update_monotone_value_witness :
  entry (update Int16 10692 {| entry := -10 |} (-5000))
  <= entry (update Int16 10692 {| entry := -9 |} (-5000)).
Proof.
  apply (update_monotone_value Int16 10692 (-10) (-9) (-5000)).
  - split; [reflexivity | vm_compute; discriminate].
  - vm_compute; discriminate.
  - vm_compute; discriminate.
  - vm_compute; discriminate.
  - vm_compute; discriminate.
Defined.

(** X5.  The update is monotone in the bonus: under the same conditions a
    larger bonus never gives a smaller result, whatever the magnitudes of
    the two bonuses. *)
Theorem update_monotone_bonus (T : ValueType) (D e b1 b2 : Z) :
  valid_bound T D -> product_fits T D -> Z.abs e <= D -> b1 <= b2 ->
  entry (update T D {| entry := e |} b1)
  <= entry (update T D {| entry := e |} b2).
Proof.
  intros Hv Hf He Hle. pose proof Hv as [Hpos _].
  rewrite (update_exact T D Hv Hf e b1 He).
  rewrite (update_exact T D Hv Hf e b2 He).
  cbn [entry]. rewrite !(exact_sum_step D).
  pose proof (clamp_bounds D Hpos b1). pose proof (clamp_bounds D Hpos b2).
  pose proof (clamp_mono D Hpos b1 b2 Hle).
  apply step_mono_bonus; lia.
Qed.

Lemma update_monotone_bonus_witness :
  entry (update Int16 30000 {| entry := 12345 |} (-40000))
  <= entry (update Int16 30000 {| entry := 12345 |} 29999).
Proof.
  apply (update_monotone_bonus Int16 30000 12345 (-40000) 29999).
  - split; [reflexivity | vm_compute; discriminate].
  - vm_compute; discriminate.
  - vm_compute; discriminate.
  - vm_compute; discriminate.
Defined.

(** A run of updates from a value within the bound stays within the bound
    and is the run of the exact formula. *)
Lemma updates_exact T D :
  valid_bound T D -> product_fits T D ->
  forall bonuses e,
    Z.abs e <= D ->
    updates T D {| entry := e |} bonuses
    = {| entry := List.fold_left (exact_sum D) bonuses e |}
    /\ Z.abs (List.fold_left (exact_sum D) bonuses e) <= D.
Proof.
  intros Hv Hf. pose proof Hv as [Hpos _].
  induction bonuses as [| b rest IH]; intros e He.
  - split; [reflexivity | exact He].
  - unfold updates. cbn [List.fold_left].
    rewrite (update_exact T D Hv Hf e b He).
    apply IH. apply exact_sum_bound; assumption.
Qed.

(** X6.  The saturation invariant over a whole run: for a value type and
    bound whose product cannot overflow and a starting value within the
    bound, after each of the successive updates with any list of bonuses the
    assertion holds, the stored value is within [-D, D], and it is the value
    the exact formula gives (nothing wraps along the way). *)
Theorem updates_bounded (T : ValueType) (D e : Z) (bonuses : list Z) (n : nat) :
  valid_bound T D -> product_fits T D -> Z.abs e <= D ->
  let se := updates T D {| entry := e |} (List.firstn n bonuses) in
  assertion D se = true
  /\ Z.abs (entry se) <= D
  /\ entry se = List.fold_left (exact_sum D) (List.firstn n bonuses) e.
Proof.
  intros Hv Hf He se.
  destruct (updates_exact T D Hv Hf (List.firstn n bonuses) e He) as [Heq Hb].
  unfold se. rewrite Heq. cbn [entry].
  split; [apply Z.leb_le; exact Hb | split; [exact Hb | reflexivity]].
Qed.

Lemma updates_bounded_witness :
  assertion 1024
    (updates Int16 1024 {| entry := 0 |}
       (List.firstn 3 [900; 5000; -70; -3000])) = true.
Proof.
  apply (updates_bounded Int16 1024 0 [900; 5000; -70; -3000] 3).
  - split; [reflexivity | vm_compute; discriminate].
  - vm_compute; discriminate.
  - vm_compute; discriminate.
Defined.

(** Under a constant positive bonus the value gains at least one per update
    until it reaches the bound. *)
Lemma repeat_update_climbs T D e bonus :
  valid_bound T D -> product_fits T D -> Z.abs e <= D -> 0 < bonus ->
  forall n,
    let v := entry (repeat_update T D bonus n {| entry := e |}) in
    Z.abs v <= D /\ Z.min D (e + Z.of_nat n) <= v
    /\ v <= entry (repeat_update T D bonus (S n) {| entry := e |}).
Proof.
  intros Hv Hf He Hb. pose proof Hv as [Hpos _].
  pose proof (clamp_bounds D Hpos bonus) as Hc.
  pose proof (clamp_sign D Hpos bonus) as (_ & _ & Hs & _). specialize (Hs Hb).
  assert (forall x, Z.abs x <= D ->
            entry (update T D {| entry := x |} bonus) = step D x (clamp bonus (- D) D)
            /\ Z.abs (step D x (clamp bonus (- D) D)) <= D
            /\ Z.min D (x + 1) <= step D x (clamp bonus (- D) D)
            /\ x <= step D x (clamp bonus (- D) D)) as Hstep.
  { intros x Hx. rewrite (update_exact T D Hv Hf x bonus Hx). cbn [entry].
    rewrite (exact_sum_step D x bonus).
    pose proof (exact_sum_bound D Hpos x bonus Hx) as Hbd.
    rewrite (exact_sum_step D x bonus) in Hbd.
    split; [reflexivity | split; [exact Hbd |]].
    destruct (Z.eq_dec x D) as [-> | Hne].
    - rewrite (step_at_bound D Hpos) by lia. lia.
    - pose proof (step_pos_strict D Hpos x (clamp bonus (- D) D)
                    ltac:(lia) ltac:(lia)). lia. }
  induction n as [| n IH]; cbn zeta in *.
  - cbn [repeat_update entry].
    destruct (Hstep e He) as (Heq & _ & _ & Hup). rewrite Heq.
    split; [exact He | split; [lia | exact Hup]].
  - destruct IH as (Hbd & Hlow & _).
    change (repeat_update T D bonus (S (S n)) {| entry := e |})
      with (update T D (repeat_update T D bonus (S n) {| entry := e |}) bonus).
    assert (repeat_update T D bonus (S n) {| entry := e |}
            = {| entry := step D (entry (repeat_update T D bonus n {| entry := e |}))
                            (clamp bonus (- D) D) |}) as Hnext.
    { cbn [repeat_update].
      destruct (repeat_update T D bonus n {| entry := e |}) as [x].
      cbn [entry] in *. destruct (Hstep x Hbd) as (Heq & _).
      destruct (update T D {| entry := x |} bonus) as [y]. cbn [entry] in Heq.
      rewrite Heq. reflexivity. }
    rewrite Hnext. cbn [entry].
    set (x := entry (repeat_update T D bonus n {| entry := e |})) in *.
    destruct (Hstep x Hbd) as (_ & Hs2 & Hs3 & _).
    destruct (Hstep _ Hs2) as (Heq2 & _ & _ & Hup). rewrite Heq2.
    split; [exact Hs2 | split; [lia | exact Hup]].
Qed.

(** Repeating the negated bonus from the negated value gives the negated
    values. *)
Lemma repeat_update_opp T D e bonus :
  valid_bound T D -> product_fits T D -> Z.abs e <= D ->
  forall n,
    Z.abs (entry (repeat_update T D bonus n {| entry := e |})) <= D
    /\ repeat_update T D (- bonus) n {| entry := - e |}
       = {| entry := - entry (repeat_update T D bonus n {| entry := e |}) |}.
Proof.
  intros Hv Hf He. pose proof Hv as [Hpos _].
  induction n as [| n [Hbd IH]].
  - split; [exact He | reflexivity].
  - cbn [repeat_update]. rewrite IH.
    destruct (repeat_update T D bonus n {| entry := e |}) as [x].
    cbn [entry] in *.
    rewrite (update_exact T D Hv Hf x bonus Hbd).
    rewrite (update_exact T D Hv Hf (- x) (- bonus)) by lia.
    cbn [entry]. split.
    + apply exact_sum_bound; assumption.
    + f_equal. rewrite !(exact_sum_step D), (clamp_opp D Hpos).
      apply step_opp. exact Hpos.
Qed.

(** X7.  Any constant non-zero bonus saturates the counter: with a value
    type and bound whose product cannot overflow and a start within the
    bound, the values after 0, 1, 2, ... updates with the same positive
    bonus never decrease and equal [D] after at most [2 * D] updates; with
    the same negative bonus they never increase and equal [-D] after at most
    [2 * D] updates. *)
Theorem constant_bonus_saturates (T : ValueType) (D e bonus : Z) (n : nat) :
  valid_bound T D -> product_fits T D -> Z.abs e <= D ->
  let v k := entry (repeat_update T D bonus k {| entry := e |}) in
  (0 < bonus -> v n <= v (S n) /\ (2 * D <= Z.of_nat n -> v n = D))
  /\ (bonus < 0 -> v (S n) <= v n /\ (2 * D <= Z.of_nat n -> v n = - D)).
Proof.
  intros Hv Hf He v. split; intros Hb.
  - destruct (repeat_update_climbs T D e bonus Hv Hf He Hb n) as (Hbd & Hlow & Hup).
    fold (v n) in Hbd, Hlow, Hup. fold (v (S n)) in Hup.
    split; [exact Hup |]. intros Hn. lia.
  - assert (forall k, v k = - entry (repeat_update T D (- bonus) k {| entry := - e |})) as Hopp.
    { intros k. unfold v.
      destruct (repeat_update_opp T D (- e) (- bonus) Hv Hf ltac:(lia) k) as [_ Heq].
      rewrite !Z.opp_involutive in Heq. rewrite Heq. reflexivity. }
    destruct (repeat_update_climbs T D (- e) (- bonus) Hv Hf ltac:(lia) ltac:(lia) n)
      as (Hbd & Hlow & Hup).
    rewrite !Hopp. split; [lia |]. intros Hn. lia.
Qed.

Lemma constant_bonus_saturates_witness :
  entry (repeat_update Int8 5 1 10 {| entry := -5 |})
  <= entry (repeat_update Int8 5 1 11 {| entry := -5 |})
  /\ (2 * 5 <= Z.of_nat 10 ->
      entry (repeat_update Int8 5 1 10 {| entry := -5 |}) = 5).
Proof.
  apply (constant_bonus_saturates Int8 5 (-5) 1 10).
  - split; [reflexivity | vm_compute; discriminate].
  - vm_compute; discriminate.
  - vm_compute; discriminate.
  - reflexivity.
Defined.

(** A value above the bound is not brought back by a smaller bonus of the
    same direction. *)
Lemma step_above_bound D e c :
  0 < D -> D < e -> 0 <= c < D -> D < step D e c <= e.
Proof.
  intros Hpos He Hc. unfold step. rewrite (Z.abs_eq c) by lia.
  destruct (quot_bounds D Hpos (e * c)) as [Hq _]. specialize (Hq ltac:(nia)).
  set (q := Z.quot (e * c) D) in *.
  assert (c <= q) by nia.
  assert (q < e + c - D) by nia.
  lia.
Qed.

Lemma step_below_bound D e c :
  0 < D -> e < - D -> - D < c <= 0 -> e <= step D e c < - D.
Proof.
  intros Hpos He Hc.
  pose proof (step_above_bound D (- e) (- c) Hpos ltac:(lia) ltac:(lia)) as H.
  rewrite (step_opp D Hpos) in H. lia.
Qed.

(** With a value type of at most 16 bits, a stored value of the type and a
    bonus within the bound, nothing wraps in the update even when the stored
    value is outside the bound. *)
Lemma update_exact_narrow T D e bonus :
  bits T <= 16 -> valid_bound T D -> in_range T e -> - D <= bonus <= D ->
  in_range T (step D e bonus) ->
  entry (update T D {| entry := e |} bonus) = step D e bonus.
Proof.
  intros Hbits [Hpos Hmax] He Hb Hres.
  assert (arith_type T = Int32) as HA by (destruct T; cbn in Hbits; try lia; reflexivity).
  assert (type_max T <= 32767 /\ type_min T = - type_max T - 1) as [HM Hmin].
  { split; [| apply type_min_max].
    destruct T; cbn in Hbits; try lia; vm_compute; discriminate. }
  unfold in_range in He, Hres. rewrite Hmin in He, Hres.
  unfold update. cbn [entry]. rewrite HA.
  rewrite (clamp_inside D bonus Hb).
  assert (Z.abs (e * Z.abs bonus) <= 32768 * 32767) as Hp.
  { rewrite Z.abs_mul. assert (0 <= Z.abs (Z.abs bonus) <= 32767) by lia.
    assert (0 <= Z.abs e <= 32768) by lia. nia. }
  assert (forall z, Z.abs z <= 32768 * 32767 + 32767 -> in_range Int32 z) as Hin.
  { intros z Hz. unfold in_range.
    change (type_min Int32) with (-2147483648).
    change (type_max Int32) with 2147483647. lia. }
  rewrite (wrap_small Int32 (e * Z.abs bonus)) by (apply Hin; lia).
  pose proof (quot_abs_le D Hpos (e * Z.abs bonus)) as Hq.
  rewrite (wrap_small Int32 (bonus - Z.quot (e * Z.abs bonus) D)) by (apply Hin; lia).
  fold (step D e bonus).
  rewrite (wrap_small Int32 (step D e bonus)) by (apply Hin; lia).
  apply wrap_small. unfold in_range. rewrite Hmin. exact Hres.
Qed.

(** X8.  The assignment operator is not guarded by the bound, and the update
    does not repair what it stored: with a value type of at most 16 bits,
    after a value above [D] has been assigned, an update with a bonus in
    [0, D) leaves a value above [D] (and at most the assigned one), so the
    assertion after the update fails; symmetrically below [-D] with a bonus
    in (-D, 0]. *)
Theorem update_after_unbounded_assign (T : ValueType) (D v bonus : Z)
    (se : StatsEntry) :
  bits T <= 16 -> valid_bound T D -> in_range T v ->
  let e' := entry (update T D (assign se v) bonus) in
  (D < v -> 0 <= bonus < D ->
   D < e' <= v /\ assertion D (update T D (assign se v) bonus) = false)
  /\ (v < - D -> - D < bonus <= 0 ->
      v <= e' < - D /\ assertion D (update T D (assign se v) bonus) = false).
Proof.
  intros Hbits Hv Hr e'. pose proof Hv as [Hpos Hmax].
  unfold e', assign, assertion. unfold in_range in Hr.
  pose proof (type_min_max T) as Hmin.
  split; intros Hout Hb.
  - pose proof (step_above_bound D v bonus Hpos Hout Hb) as Hs.
    rewrite (update_exact_narrow T D v bonus Hbits Hv Hr) by (unfold in_range; lia).
    split; [exact Hs | apply Z.leb_gt; lia].
  - pose proof (step_below_bound D v bonus Hpos Hout Hb) as Hs.
    rewrite (update_exact_narrow T D v bonus Hbits Hv Hr) by (unfold in_range; lia).
    split; [exact Hs | apply Z.leb_gt; lia].
Qed.

Lemma update_after_unbounded_assign_witness :
  100 < entry (update Int16 100 (assign value_init 200) 50) <= 200
  /\ assertion 100 (update Int16 100 (assign value_init 200) 50) = false.
Proof.
  apply (update_after_unbounded_assign Int16 100 200 50 value_init).
  - vm_compute; discriminate.
  - split; [reflexivity | vm_compute; discriminate].
  - split; vm_compute; discriminate.
  - reflexivity.
  - split; [vm_compute; discriminate | reflexivity].
Defined.

(** ** Further properties of the index functions *)

(** A positive size that passes the assertion is a power of two. *)
Lemma power_of_2_assert_pow2 size :
  0 < size -> power_of_2_assert size = true -> size = 2 ^ Z.log2 size.
Proof.
  unfold power_of_2_assert. intros Hpos Hland. apply Z.eqb_eq in Hland.
  pose proof (Z.log2_spec size Hpos) as [Hlo Hhi].
  pose proof (Z.log2_nonneg size) as Hk.
  destruct (Z.eq_dec size (2 ^ Z.log2 size)) as [Heq | Hne]; [exact Heq | exfalso].
  assert (Z.log2 (size - 1) = Z.log2 size) as Hlog
      by (apply Z.log2_unique; [exact Hk | lia]).
  assert (0 < size - 1) as Hpos'.
  { assert (0 < 2 ^ Z.log2 size) by (apply Z.pow_pos_nonneg; lia). lia. }
  pose proof (Z.bit_log2 size Hpos) as Hb1.
  pose proof (Z.bit_log2 (size - 1) Hpos') as Hb2. rewrite Hlog in Hb2.
  apply (f_equal (fun z => Z.testbit z (Z.log2 size))) in Hland.
  rewrite Z.land_spec, Hb1, Hb2, Z.testbit_0_l in Hland. discriminate.
Qed.

(** X9.  The static assertion on the table sizes is exactly what the masking
    needs: for a positive size, [(size & (size - 1)) == 0] holds if and only
    if [key & (size - 1)] equals [key mod size] for every key; and both
    sizes of the header pass it. *)
Theorem power_of_2_assert_exact (size : Z) :
  0 < size ->
  (power_of_2_assert size = true
   <-> forall key, Z.land key (size - 1) = key mod size)
  /\ power_of_2_assert PAWN_HISTORY_SIZE = true
  /\ power_of_2_assert CORRECTION_HISTORY_SIZE = true.
Proof.
  intros Hpos. split; [| split; reflexivity]. split.
  - intros Hassert key.
    pose proof (power_of_2_assert_pow2 size Hpos Hassert) as Hsize.
    pose proof (Z.log2_nonneg size) as Hk.
    rewrite Hsize at 1 2.
    replace (2 ^ Z.log2 size - 1) with (Z.ones (Z.log2 size))
      by (rewrite Z.ones_equiv; lia).
    apply Z.land_ones. exact Hk.
  - intros Hmask. unfold power_of_2_assert. apply Z.eqb_eq.
    rewrite (Hmask size). apply Z.mod_same. lia.
Qed.

Lemma power_of_2_assert_exact_witness :
  power_of_2_assert 512 = true
  <-> forall key, Z.land key (512 - 1) = key mod 512.
Proof.
  apply (power_of_2_assert_exact 512). reflexivity.
Defined.

(** X10.  The two modes of the pawn index agree on the low bits: the index
    in [Normal] mode is the index in [Correction] mode modulo
    [PAWN_HISTORY_SIZE], so two positions that share a slot of the
    correction table share a slot of the pawn history table. *)
Theorem pawn_structure_index_modes (pos pos' : Position) :
  pawn_structure_index Normal pos
  = pawn_structure_index Correction pos mod PAWN_HISTORY_SIZE
  /\ (pawn_structure_index Correction pos = pawn_structure_index Correction pos' ->
      pawn_structure_index Normal pos = pawn_structure_index Normal pos').
Proof.
  assert (forall p, pawn_structure_index Normal p
                    = pawn_structure_index Correction p mod PAWN_HISTORY_SIZE) as H.
  { intros p. unfold pawn_structure_index.
    destruct (mask_index (pawn_key p) 9 ltac:(lia)) as (H1 & H2 & _).
    destruct (mask_index (pawn_key p) 15 ltac:(lia)) as (H3 & H4 & _).
    change (pawn_history_size Normal - 1) with (2 ^ 9 - 1).
    change (pawn_history_size Correction - 1) with (2 ^ 15 - 1).
    rewrite H1, H2, H3, H4.
    change PAWN_HISTORY_SIZE with (2 ^ 9).
    symmetry. apply Z.mod_mod_divide. exists 64. reflexivity. }
  split; [apply H |]. intros Heq. rewrite !H, Heq. reflexivity.
Qed.

Lemma pawn_structure_index_modes_witness :
  pawn_structure_index Normal
    {| pawn_key := 33280; minor_piece_key := 0; non_pawn_key := fun _ => 0 |}
  = pawn_structure_index Normal
    {| pawn_key := 512; minor_piece_key := 1; non_pawn_key := fun _ => 2 |}.
Proof.
  apply (pawn_structure_index_modes
           {| pawn_key := 33280; minor_piece_key := 0; non_pawn_key := fun _ => 0 |}
           {| pawn_key := 512; minor_piece_key := 1; non_pawn_key := fun _ => 2 |}).
  reflexivity.
Defined.


(** ** Further properties of the knight index *)

Lemma knight_attack_index_range_witness :
  exists i, knight_attack_index 18446744073709551615 63 = Some i /\ 0 <= i < 256.
Proof.
  apply (knight_attack_index_range 18446744073709551615 63). lia.
Defined.

Lemma knight_attack_index_injective_off_centre_witness :
  square_bb 10 = 1024.
Proof.
  apply (knight_attack_index_injective_off_centre 0 (square_bb 10) 1024).
  - lia.
  - vm_compute. intuition discriminate.
  - reflexivity.
  - reflexivity.
  - reflexivity.
Defined.

(** X13.  On each of the twelve central origins the only two distinct
    subsets of the destination set that share an index are the empty set and
    the full destination set. *)
Theorem knight_attack_index_central_clash (from : nat) (s1 s2 : Z) :
  In from central_origins ->
  subset_bb s1 (knight_attacks_bb from) ->
  subset_bb s2 (knight_attacks_bb from) ->
  s1 <> s2 ->
  (knight_attack_index s1 from = knight_attack_index s2 from
   <-> (s1 = 0 /\ s2 = knight_attacks_bb from)
       \/ (s1 = knight_attacks_bb from /\ s2 = 0)).
Proof.
  intros Hc H1 H2 Hne.
  pose proof (proj1 (List.Forall_forall _ _)
                knight_attack_index_central_collisions from Hc)
    as (Hfull & Hzero & Hclash).
  assert (subset_bb 0 (knight_attacks_bb from)) as H0 by apply Z.land_0_l.
  split.
  - intros Heq.
    destruct (Z.eq_dec s1 (knight_attacks_bb from)) as [E1 | N1];
      destruct (Z.eq_dec s2 (knight_attacks_bb from)) as [E2 | N2].
    + congruence.
    + right. split; [exact E1 |].
      apply (knight_attack_index_injective_proper from s2 0 Hc H2 N2 H0);
        [congruence |].
      rewrite <- Heq, E1, Hclash, Hzero. reflexivity.
    + left. split; [| exact E2].
      apply (knight_attack_index_injective_proper from s1 0 Hc H1 N1 H0);
        [congruence |].
      rewrite Heq, E2, Hclash, Hzero. reflexivity.
    + exfalso. apply Hne.
      apply (knight_attack_index_injective_proper from s1 s2 Hc H1 N1 H2 N2 Heq).
  - intros [[-> ->] | [-> ->]]; rewrite Hclash, Hzero; reflexivity.
Qed.

Lemma knight_attack_index_central_clash_witness :
  knight_attack_index 0 27 = knight_attack_index (knight_attacks_bb 27) 27.
Proof.
  apply (knight_attack_index_central_clash 27 0 (knight_attacks_bb 27)).
  - do 5 right. left. reflexivity.
  - reflexivity.
  - reflexivity.
  - vm_compute. discriminate.
  - left. split; reflexivity.
Defined.


(** ** Further properties of the catalogue and of the decay *)

(** X14.  Every table of the catalogue is safe from its zero state: for each
    alias of the header, after each of the successive updates of a
    value-initialised counter with any list of bonuses the assertion holds,
    the stored value is within [-D, D] and within the range of [int16_t],
    and it is the value the exact formula gives. *)
Theorem catalog_runs_bounded (T : ValueType) (D : Z) (bonuses : list Z) (n : nat) :
  In (T, D) catalog ->
  let se := updates T D value_init (List.firstn n bonuses) in
  assertion D se = true
  /\ Z.abs (entry se) <= D
  /\ in_range Int16 (entry se)
  /\ entry se = List.fold_left (exact_sum D) (List.firstn n bonuses) 0.
Proof.
  intros Hin se. destruct (catalog_int16 T D Hin) as [-> [Hpos Hmax]].
  assert (valid_bound Int16 D) as Hv by (split; [lia | exact Hmax]).
  assert (product_fits Int16 D) as Hf
      by (apply narrow_product_fits; [vm_compute; discriminate | exact Hv]).
  destruct (updates_exact Int16 D Hv Hf (List.firstn n bonuses) 0 ltac:(lia))
    as [Heq Hb].
  unfold se, value_init. rewrite Heq. cbn [entry].
  split; [apply Z.leb_le; exact Hb |]. split; [exact Hb |].
  split; [| reflexivity].
  apply in_range_abs. change (type_max Int16) with 32767. lia.
Qed.

Lemma catalog_runs_bounded_witness :
  assertion 7183
    (updates Int16 7183 value_init (List.firstn 2 [7000; 7000; -20000])) = true.
Proof.
  apply (catalog_runs_bounded Int16 7183 [7000; 7000; -20000] 2).
  left. reflexivity.
Defined.

(** X15.  The update is a decay towards the bound the bonus points to: under
    the conditions of X1, with [c] the clamped bonus and [e'] the new value,
    for a non-negative bonus the gap [D - e'] is [(D - e) * (D - c) / D] up
    to the rounding of the division, and for a non-positive bonus the gap
    [D + e'] is [(D + e) * (D + c) / D] up to that rounding. *)
Theorem update_contracts_gap (T : ValueType) (D e bonus : Z) :
  valid_bound T D -> product_fits T D -> Z.abs e <= D ->
  let c := clamp bonus (- D) D in
  let e' := entry (update T D {| entry := e |} bonus) in
  (0 <= bonus -> Z.abs (D * (D - e') - (D - e) * (D - c)) < D)
  /\ (bonus <= 0 -> Z.abs (D * (D + e') - (D + e) * (D + c)) < D).
Proof.
  intros Hv Hf He c e'. pose proof Hv as [Hpos _].
  assert (e' = step D e c) as ->
      by (unfold e'; rewrite (update_exact T D Hv Hf e bonus He); reflexivity).
  pose proof (clamp_bounds D Hpos bonus) as Hc. fold c in Hc.
  pose proof (clamp_sign D Hpos bonus) as (Hs1 & Hs2 & _). fold c in Hs1, Hs2.
  unfold step.
  destruct (quot_bounds D Hpos (e * Z.abs c)) as [Hp Hn].
  set (q := Z.quot (e * Z.abs c) D) in *.
  split; intros Hb.
  - specialize (Hs1 Hb). rewrite (Z.abs_eq c) in * by lia.
    destruct (Z_le_gt_dec 0 e) as [H | H].
    + specialize (Hp ltac:(nia)). nia.
    + specialize (Hn ltac:(nia)). nia.
  - specialize (Hs2 Hb). rewrite (Z.abs_neq c) in * by lia.
    destruct (Z_le_gt_dec 0 e) as [H | H].
    + specialize (Hp ltac:(nia)). nia.
    + specialize (Hn ltac:(nia)). nia.
Qed.

Lemma update_contracts_gap_witness :
  Z.abs (8192 * (8192 - entry (update Int16 8192 {| entry := 1000 |} 4096))
         - (8192 - 1000) * (8192 - clamp 4096 (- 8192) 8192)) < 8192.
Proof.
  apply (update_contracts_gap Int16 8192 1000 4096).
  - split; [reflexivity | vm_compute; discriminate].
  - vm_compute; discriminate.
  - vm_compute; discriminate.
  - vm_compute; discriminate.
Defined.
